(** * primes.c: a segmented, bit-packed sieve of Eratosthenes

    A shallow embedding of [src/primes.c] and the proofs of the properties
    its specification states.  The embedding follows the C text line by
    line:

    - [int] and [uint64_t] values are integers of [Z]; every arithmetic
      operation of the source is followed by the wrap-around of the type
      it is computed in ([to_int], [to_u64], [to_uchar]);
    - the byte buffers returned by [calloc] are lists of bytes, read and
      updated by index; an access outside the buffer has no result;
    - every [for] loop is an instance of the combinator [for_loop], which
      runs at most [fuel] iterations and has no result when they do not
      suffice;
    - the two counters shared by the slice jobs through pointers are the
      record [counters], passed to each job and returned by it;
    - the two computations in [double], [ceil (sqrt (x))] and
      [ceil (a / b)], are the integers they yield on the operands of this
      program ([ceil_sqrt], [ceil_div]), and [calloc] succeeds.

    A result [Some _] of the model therefore means that the run ends, with
    that result, without reading or writing outside a buffer. *)

From Stdlib Require Import ZArith Lia Bool.
From stdpp Require Import base tactics option list numbers.

Local Open Scope Z_scope.

(** ** C integer types *)

Module CInt.

Definition INT_MIN : Z := - 2 ^ 31.
Definition INT_MAX : Z := 2 ^ 31 - 1.
Definition UINT64_MAX : Z := 2 ^ 64 - 1.

(** Conversion to [int] (two's complement wrap-around). *)
Definition to_int (z : Z) : Z := (z + 2 ^ 31) mod 2 ^ 32 - 2 ^ 31.

(** Conversion to [uint64_t]. *)
Definition to_u64 (z : Z) : Z := z mod 2 ^ 64.

(** Conversion to [unsigned char]. *)
Definition to_uchar (z : Z) : Z := z mod 2 ^ 8.

Definition fits_int (z : Z) : Prop := INT_MIN <= z <= INT_MAX.
Definition fits_u64 (z : Z) : Prop := 0 <= z <= UINT64_MAX.

(** [(int) ceil (sqrt (x))] for an unsigned [x].  Below [2^52] the
    argument converts to [double] exactly and the correctly rounded
    square root lies strictly between the two neighbouring integers
    unless it is one, so the C expression is the integer ceiling of
    the real square root.  From [2^52] on the rounded root of a value
    just above a square can be the root of the square, and the C
    expression one less than this definition: the properties of the
    program are stated for operands below [2^52], which those of a run
    are (at most [10^15 + 15]). *)
Definition ceil_sqrt (x : Z) : Z := Z.sqrt_up x.

(** [(int) ceil ((double) a / b)] for non-negative [a] and positive [b]:
    for the operands of this program (quotients below [2^30], divisors
    below [2^25]) the rounded quotient is an integer only when the real
    one is, so the C expression is the integer ceiling of [a / b]. *)
Definition ceil_div (a b : Z) : Z := (a + b - 1) / b.

End CInt.
Import CInt.

Notation "a +ᵢ b" := (to_int (a + b)) (at level 50, left associativity).
Notation "a *ᵢ b" := (to_int (a * b)) (at level 40, left associativity).
Notation "-ᵢ a" := (to_int (- a)) (at level 35, right associativity).
Notation "a +ᵤ b" := (to_u64 (a + b)) (at level 50, left associativity).
Notation "a -ᵤ b" := (to_u64 (a - b)) (at level 50, left associativity).
Notation "a *ᵤ b" := (to_u64 (a * b)) (at level 40, left associativity).
Notation "a /ᵤ b" := (to_u64 (a / b)) (at level 40, left associativity).

(** [x + (-x & 0xf)] in [int]: the idiom of lines 82, 91 and 216 that
    rounds [x] up to a multiple of 16. *)
Definition round_up_16 (x : Z) : Z := x +ᵢ Z.land (-ᵢ x) 15.

(** ** The bit sieve (lines 108-115 and 218-227)

    One byte stands for 16 consecutive integers, of which only the odd
    ones have a bit: value [v] lives in byte [v >> 4], bit [(v >> 1) & 7].
    A set bit means composite. *)

Module BitSieve.

(** [calloc (1, n)] *)
Definition calloc (n : Z) : list Z := replicate (Z.to_nat n) 0.

(** [p [i]] as an rvalue *)
Definition load (p : list Z) (i : Z) : option Z :=
  if decide (0 <= i) then p !! Z.to_nat i else None.

(** [p [i] |= m] *)
Definition or_store (p : list Z) (i m : Z) : option (list Z) :=
  b ← load p i;
  Some (<[Z.to_nat i := to_uchar (Z.lor b m)]> p).

(** [1 << ((v >> 1) & 0x7)] *)
Definition bit_mask (v : Z) : Z := 1 ≪ (Z.land (v ≫ 1) 7).

(** [p [v >> 4] |= 1 << ((v >> 1) & 0x7)] (lines 115 and 224) *)
Definition mark_composite (p : list Z) (v : Z) : option (list Z) :=
  or_store p (v ≫ 4) (bit_mask v).

(** [!(p [v >> 4] & ((v & 1) << ((v >> 1) & 0x7)))] (lines 113, 120) *)
Definition is_prime_main (p : list Z) (v : Z) : option bool :=
  b ← load p (v ≫ 4);
  Some (Z.land b (Z.land v 1 ≪ Z.land (v ≫ 1) 7) =? 0).

(** [!(p [v >> 4] & (1 << ((v >> 1) & 0x7)))] (lines 222, 227) *)
Definition is_prime_slice (p : list Z) (v : Z) : option bool :=
  b ← load p (v ≫ 4);
  Some (Z.land b (bit_mask v) =? 0).

(** The bit that stands for [v], read without bounds: the abstract
    content of the sieve. *)
Definition marked (p : list Z) (v : Z) : bool :=
  Z.testbit (default 0 (p !! Z.to_nat (v ≫ 4))) (Z.land (v ≫ 1) 7).

(** The number of values a buffer stands for. *)
Definition range (p : list Z) : Z := 16 * Z.of_nat (length p).

End BitSieve.
Import BitSieve.

(** ** Loops *)

Section ForLoop.
Context {St : Type}.
Variable cond : St → bool.
Variable body : St → option St.

(** [for (...; cond; ...) body], the increment being part of [body]. *)
Fixpoint for_loop (fuel : nat) (s : St) : option St :=
  if cond s then
    match fuel with
    | O => None
    | S fuel' => s' ← body s; for_loop fuel' s'
    end
  else Some s.
End ForLoop.

(** ** The program *)

(** The two shared counters, [prime_count] and [last_prime] of [main],
    which the slice jobs reach through the pointers [total_primes] and
    [last_prime] of their interface. *)
Record counters := Counters { total_primes : Z; last_prime : Z }.

(** The job context of lines 42-48; the two output pointers are the
    [counters] threaded through [prime_slice]. *)
Record prime_slice_interface := Interface {
  base_primes : list Z;
  slice_start : Z;
  slice_values : Z
}.

(** Lines 76-96: the strategy chosen from [max_prime]. *)
Inductive strategy :=
  | TooLarge
  | TooSmall
  | Strategy (max_base_prime num_slices : Z).

Definition slice_plan (max_prime : Z) : strategy :=
  if 1000000000000000 <? max_prime then TooLarge
  else if 1000000000000 <? max_prime then
    let max_base_prime := to_int (ceil_sqrt max_prime) in
    let max_base_prime := round_up_16 max_base_prime in
    Strategy max_base_prime
      (to_int (ceil_div (max_prime -ᵤ to_u64 max_base_prime) max_base_prime))
  else if 1048576 <? max_prime then
    let max_base_prime := 1048576 in
    Strategy max_base_prime
      (to_int (ceil_div (max_prime -ᵤ to_u64 max_base_prime) max_base_prime))
  else if 10 <=? max_prime then
    let max_base_prime := to_int max_prime in
    Strategy (round_up_16 max_base_prime) 0
  else TooSmall.

(** Lines 114-115 and the loop of lines 223-224:
    [for (cprime = ...; cprime < bound; cprime += tprime * 2) mark cprime].
    The state is [(cprime, buffer)]. *)
Definition mark_multiples (fuel : nat) (tprime bound : Z)
    (cprime : Z) (p : list Z) : option (list Z) :=
  snd <$> for_loop
    (λ '(cprime, _), cprime <? bound)
    (λ '(cprime, p), p' ← mark_composite p cprime;
                     Some (cprime +ᵢ tprime *ᵢ 2, p'))
    fuel (cprime, p).

(** Lines 108-115: the base sieve over [0, max_base_prime). *)
Definition build_base (fuel : nat) (max_base_prime : Z) : option (list Z) :=
  let primes := calloc (Z.quot max_base_prime 16) in
  primes ← or_store primes 0 1;
  snd <$> for_loop
    (λ '(tprime, _), tprime *ᵢ tprime <? max_base_prime)
    (λ '(tprime, primes),
       unmarked ← is_prime_main primes tprime;
       primes' ← (if unmarked : bool
                  then mark_multiples fuel tprime max_base_prime
                         (tprime *ᵢ tprime) primes
                  else Some primes);
       Some (tprime +ᵢ 2, primes'))
    fuel (3, primes).

(** Lines 117-123: the scan that seeds the counters.  [last_prime] is
    declared without an initial value: [junk] stands for what it holds. *)
Definition scan_base (fuel : nat) (primes : list Z)
    (max_base_prime max_prime junk : Z) : option counters :=
  snd <$> for_loop
    (λ '(tprime, _), (tprime <? max_base_prime) && (to_u64 tprime <? max_prime))
    (λ '(tprime, c),
       unmarked ← is_prime_main primes tprime;
       Some (tprime +ᵢ 2,
             if unmarked : bool
             then Counters (total_primes c +ᵤ 1) (to_u64 tprime)
             else c))
    fuel (3, Counters 1 junk).

(** Line 223, the initialiser of [cprime]: an [int] converted from an
    expression computed in [uint64_t], but for [tprime * 2]. *)
Definition first_offset (slice_start tprime : Z) : Z :=
  to_int
    ((((slice_start +ᵤ to_u64 tprime -ᵤ 1) /ᵤ to_u64 (tprime *ᵢ 2) *ᵤ 2 +ᵤ 1)
        *ᵤ to_u64 tprime) -ᵤ slice_start).

(** Lines 221-224: sieve the slice with the primes of the base. *)
Definition sieve_slice (fuel : nat) (cxt : prime_slice_interface)
    (slice_count tprime_limit : Z) (slice_primes : list Z) : option (list Z) :=
  snd <$> for_loop
    (λ '(tprime, _), tprime <? tprime_limit)
    (λ '(tprime, slice_primes),
       unmarked ← is_prime_slice (base_primes cxt) tprime;
       slice_primes' ← (if unmarked : bool
                        then mark_multiples fuel tprime slice_count
                               (first_offset (slice_start cxt) tprime) slice_primes
                        else Some slice_primes);
       Some (tprime +ᵢ 2, slice_primes'))
    fuel (3, slice_primes).

(** Lines 226-230: count the unmarked odd values of the slice.  The result
    holds the locals [num_primes] and [last_prime]. *)
Definition scan_slice (fuel : nat) (slice_start prime_count : Z)
    (slice_primes : list Z) : option counters :=
  snd <$> for_loop
    (λ '(tprime, _), tprime <? prime_count)
    (λ '(tprime, c),
       unmarked ← is_prime_slice slice_primes tprime;
       Some (tprime +ᵢ 2,
             if unmarked : bool
             then Counters (total_primes c +ᵤ 1) (slice_start +ᵤ to_u64 tprime)
             else c))
    fuel (1, Counters 0 0).

(** Lines 240-243: the merge under [workerSync]. *)
Definition merge (shared found : counters) : counters :=
  Counters (total_primes shared +ᵤ total_primes found) (last_prime found).

(** Lines 213-259: one slice job, from the shared counters before its
    merge to the shared counters after it. *)
Definition prime_slice (fuel : nat) (cxt : prime_slice_interface)
    (shared : counters) : option counters :=
  let prime_count := slice_values cxt in
  let slice_count := prime_count +ᵢ Z.land (-ᵢ prime_count) 15 in
  let tprime_limit := to_int (ceil_sqrt (slice_start cxt +ᵤ to_u64 slice_count)) in
  let slice_primes := calloc (Z.quot slice_count 16) in
  slice_primes ← sieve_slice fuel cxt slice_count tprime_limit slice_primes;
  found ← scan_slice fuel (slice_start cxt) prime_count slice_primes;
  Some (merge shared found).

(** Lines 152-170: the job that the driver creates for slice [slice]. *)
Definition make_job (primes : list Z) (max_base_prime max_prime num_slices : Z)
    (slice : Z) : prime_slice_interface :=
  let start := to_u64 max_base_prime *ᵤ to_u64 slice in
  Interface primes start
    (if slice =? num_slices then to_int (max_prime -ᵤ start) else max_base_prime).

(** The two ways of lines 165 and 169 to enqueue a job. *)
Inductive job_mode := DontUseWorkerThread | WaitForAvailableWorkerThread.

(** Modelled from the spec: the worker pool declared by [workers.h]
    ([workersEnqueueJob], [workerSync], [workersWaitAllJobs]), which is
    not part of the sources.  [workerSync] grants the jobs the critical
    section one at a time and in the order of their submission, and a job
    of this program touches the shared counters only there; so, for the
    shared counters, enqueueing a job is running it on the counters that
    the jobs enqueued before it have left, in either mode and for every
    number of worker threads (with none, this is the execution itself). *)
Definition workersEnqueueJob
    (function : prime_slice_interface → counters → option counters)
    (context : prime_slice_interface) (mode : job_mode) (shared : counters)
    : option counters :=
  function context shared.

(** Lines 151-185: the driver. *)
Definition run_slices (fuel : nat) (primes : list Z)
    (max_base_prime max_prime num_slices : Z) (c : counters) : option counters :=
  snd <$> for_loop
    (λ '(slice, _), slice <=? num_slices)
    (λ '(slice, c),
       let interface :=
         make_job primes max_base_prime max_prime num_slices slice in
       c' ← workersEnqueueJob (prime_slice fuel) interface
              (if slice =? num_slices then DontUseWorkerThread
               else WaitForAvailableWorkerThread) c;
       Some (slice +ᵢ 1, c'))
    fuel (1, c).

(** Lines 108-196: the computation proper, for a strategy. *)
Definition count_primes (fuel : nat) (max_prime max_base_prime num_slices junk : Z)
    : option (counters * counters) :=
  primes ← build_base fuel max_base_prime;
  base ← scan_base fuel primes max_base_prime max_prime junk;
  if num_slices =? 0 then Some (base, base)
  else
    final ← run_slices fuel primes max_base_prime max_prime num_slices base;
    Some (base, final).

(** What the program prints on standard output, one constructor for each
    [printf] (the progress line on [stderr] is left out). *)
Inductive message :=
  | Usage
  | SorryQuadrillion
  | SorryAtLeast10
  | SorryWorkers
  | BasePrimes (count bound last : Z)
  | Processing (slices workers : Z)
  | ThereAre (count bound last : Z).

Record outcome := Outcome { exit_code : Z; printed : list message }.

(** Lines 58 and 98-99: the worker count, 4 unless a second argument
    gives it. *)
Definition workers_of (rest : list Z) : Z :=
  match rest with [] => 4 | w :: _ => w end.

(** Lines 56-200.  [argv] holds the values of the arguments that follow
    the program name: [max_prime] as converted by line 72 and
    [num_workers] as converted by line 99. *)
Definition main (fuel : nat) (junk : Z) (argv : list Z) : option outcome :=
  match argv with
  | [] => Some (Outcome 0 [Usage])
  | max_prime :: rest =>
    match slice_plan max_prime with
    | TooLarge => Some (Outcome 1 [SorryQuadrillion])
    | TooSmall => Some (Outcome 1 [SorryAtLeast10])
    | Strategy max_base_prime num_slices =>
      let num_workers := workers_of rest in
      if (num_workers <? 0) || (100 <? num_workers)
      then Some (Outcome 1 [SorryWorkers])
      else
        '(base, final) ← count_primes fuel max_prime max_base_prime num_slices junk;
        if num_slices =? 0
        then Some (Outcome 0
               [ThereAre (to_int (total_primes base)) (to_int max_prime)
                         (to_int (last_prime base))])
        else Some (Outcome 0
               [BasePrimes (to_int (total_primes base)) max_base_prime
                           (to_int (last_prime base));
                Processing num_slices num_workers;
                ThereAre (total_primes final) max_prime (last_prime final)])
    end
  end.


(** ** Reference notions *)

(** The worker counts that line 101 lets through. *)
Definition workers_ok (rest : list Z) : Prop := 0 <= workers_of rest <= 100.

(** Primality by trial division. *)
Definition is_prime (n : Z) : bool :=
  (1 <? n) && forallb (λ d, negb (n mod d =? 0)) (seqZ 2 (n - 2)).

(** The primes of [lo, hi), in increasing order. *)
Definition primes_in (lo hi : Z) : list Z :=
  filter (λ v, is_prime v) (seqZ lo (hi - lo)).

(** The number of primes strictly below [n]. *)
Definition pi (n : Z) : Z := Z.of_nat (length (primes_in 0 n)).

(** [p] is the greatest prime below [n]. *)
Definition greatest_prime_below (n p : Z) : Prop :=
  Z.prime p ∧ p < n ∧ ∀ q, Z.prime q → q < n → q <= p.

(** The odd values of [lo, hi) that a buffer leaves unmarked, in
    increasing order. *)
Definition unmarked_odds (p : list Z) (lo hi : Z) : list Z :=
  filter (λ v, Z.odd v && negb (marked p v)) (seqZ lo (hi - lo)).

(** [w] is one of [c0], [c0 + 2 t], [c0 + 4 t], ... below [lim]: the
    values that the loop of [mark_multiples] passes through. *)
Definition stride_hit (c0 t lim w : Z) : bool :=
  (c0 <=? w) && (w <? lim) && ((w - c0) mod (2 * t) =? 0).

(** [w] has a prime factor [q] with [3 <= q < t] and [q * q <= w]: what
    the base sieve has marked when its outer loop reaches [t]. *)
Definition sieved_by (t w : Z) : Prop :=
  ∃ q, Z.prime q ∧ 3 <= q < t ∧ q * q <= w ∧ (q | w).

(** [w] has a prime factor [q] with [3 <= q < t]: what the sieve of a
    slice has marked when its outer loop reaches [t]. *)
Definition has_factor_below (t w : Z) : Prop :=
  ∃ q, Z.prime q ∧ 3 <= q < t ∧ (q | w).

(** The types that line 223 computes in. *)
Inductive ctype := Int | U64.

Definition fits (ty : ctype) (z : Z) : Prop :=
  match ty with Int => fits_int z | U64 => fits_u64 z end.

(** The integers that the subexpressions of the initialiser of line 223
    denote, innermost first, each with the type it is computed in or
    converted to. *)
Definition first_offset_steps (slice_start tprime : Z) : list (ctype * Z) :=
  let sum := slice_start + tprime in
  let stride := tprime * 2 in
  let quotient := (sum - 1) / stride in
  let multiple := (quotient * 2 + 1) * tprime in
  [ (U64, tprime); (U64, sum); (U64, sum - 1); (Int, stride); (U64, stride);
    (U64, quotient); (U64, quotient * 2); (U64, quotient * 2 + 1);
    (U64, multiple); (U64, multiple - slice_start);
    (Int, multiple - slice_start) ].

(** The strategies for which the computation is proved: a value within
    the limit of line 76, so that the square roots of line 217 are those
    of [ceil_sqrt]; a base bound that is a multiple of 16; and either no
    slice and a base that covers [max_prime], or slices that tile
    [max_base_prime, max_prime) with a base that reaches the square root
    of [max_prime]. *)
Definition valid_plan (max_prime max_base_prime num_slices : Z) : Prop :=
  16 <= max_base_prime <= 2 ^ 28 ∧ max_base_prime mod 16 = 0 ∧
  4 <= max_prime <= 1000000000000000 ∧
  ((num_slices = 0 ∧ max_prime <= max_base_prime) ∨
   (1 <= num_slices ∧
    num_slices * max_base_prime < max_prime <= (num_slices + 1) * max_base_prime ∧
    max_prime <= max_base_prime * max_base_prime)).

(** The roundings of the specification's slice plan, by what they mean:
    [r] is the ceiling of the square root of [n], [y] is [x] rounded up to
    a multiple of 16, [q] is the ceiling of [a / b]. *)
Definition is_ceil_sqrt (n r : Z) : Prop :=
  0 <= r ∧ (r - 1) * (r - 1) < n <= r * r.

Definition is_round_up_16 (x y : Z) : Prop :=
  y mod 16 = 0 ∧ x <= y < x + 16.

Definition is_ceil_quotient (a b q : Z) : Prop :=
  (q - 1) * b < a <= q * b.

(** The odd values of [lo, hi), in increasing order. *)
Definition odds (lo hi : Z) : list Z :=
  filter (λ v, Z.odd v) (seqZ lo (hi - lo)).



(** The unsliced pass in the words of the specification (4.2, with the
    bound of the last band of 4.3), for the comparison with the sliced
    computation: over unbounded integers, 1 is marked; each odd [t] with
    [t * t < boundB] that is unmarked when its turn comes marks its odd
    multiples from [t * t] up to [boundB].  The marks are a predicate. *)
Definition unsliced_marks (boundB : Z) : Z → bool :=
  foldl (λ (marks : Z → bool) t,
           if marks t then marks
           else λ w, marks w || stride_hit (t * t) t boundB w)
        (λ w, w =? 1)
        (filter (λ t, t * t <? boundB) (odds 3 boundB)).

(** Its count: [boundB] is [N] rounded up to a multiple of 16, the scan
    counts the unmarked odd values of [3, min boundB N), and 2 is counted
    beforehand. *)
Definition unsliced_count (N : Z) : Z :=
  let boundB := 16 * ((N + 15) / 16) in
  1 + Z.of_nat (length (filter (λ v, negb (unsliced_marks boundB v))
                          (odds 3 (Z.min boundB N)))).

(** Trial division up to the square root, to decide the primality of
    single large values. *)
Definition no_divisor_to_sqrt (n : Z) : bool :=
  (1 <? n) && forallb (λ d, negb (n mod d =? 0)) (seqZ 2 (Z.sqrt n - 1)).

(** ** The progress display and the alternative merge *)

(** One progress line of line 176: the percentage, and whether the line
    ends in [(done)]. *)
Inductive progress := Progress (percent : Z) (finished : bool).

(** Line 173: [(slice * 100 + (num_slices / 2)) / num_slices], in [int]. *)
Definition percent_of (slice num_slices : Z) : Z :=
  to_int (Z.quot (slice *ᵢ 100 +ᵢ to_int (Z.quot num_slices 2)) num_slices).

(** Lines 146, 151 and 172-179: what the loop of the driver writes to
    [stderr].  The state is [(slice, (progress_percent, lines))]. *)
Definition progress_lines (fuel : nat) (num_slices : Z) : option (list progress) :=
  (λ st, st.2.2) <$> for_loop
    (λ '(slice, _), slice <=? num_slices)
    (λ '(slice, (progress_percent, lines)),
       Some (slice +ᵢ 1,
             if 1000 <? num_slices then
               let percent := percent_of slice num_slices in
               if percent =? progress_percent then (progress_percent, lines)
               else (percent, lines ++ [Progress percent (percent =? 100)])
             else (progress_percent, lines)))
    fuel (1, (-1, [])).

(** The lines from 0% to 100%, the last one marked. *)
Definition full_progress : list progress :=
  (λ p, Progress p (p =? 100)) <$> seqZ 0 101.

(** Lines 245-250, the branch that [#if 1] leaves out: an atomic addition
    to the count, and a compare-and-exchange loop that stores the last
    prime of the slice only over a smaller one.  Each of the two is one
    atomic step on its own variable. *)
Definition merge_atomic (shared found : counters) : counters :=
  Counters (total_primes shared +ᵤ total_primes found)
           (if last_prime shared <? last_prime found
            then last_prime found else last_prime shared).

(** The counters after the merges of a sequence of slice results. *)
Definition merge_all (op : counters → counters → counters)
    (shared : counters) (found : list counters) : counters :=
  foldl op shared found.

(** Lines 213-259 with the merge of lines 245-250 in the place of that of
    lines 241-243. *)
Definition prime_slice_atomic (fuel : nat) (cxt : prime_slice_interface)
    (shared : counters) : option counters :=
  let prime_count := slice_values cxt in
  let slice_count := prime_count +ᵢ Z.land (-ᵢ prime_count) 15 in
  let tprime_limit := to_int (ceil_sqrt (slice_start cxt +ᵤ to_u64 slice_count)) in
  let slice_primes := calloc (Z.quot slice_count 16) in
  slice_primes ← sieve_slice fuel cxt slice_count tprime_limit slice_primes;
  found ← scan_slice fuel (slice_start cxt) prime_count slice_primes;
  Some (merge_atomic shared found).

(** The jobs of lines 151-170 with that merge, for the order [order] in
    which the jobs reach it: without [workerSync] nothing ties this order
    to the order of submission.  The two atomic steps of a job are taken
    together; they act on different variables. *)
Definition run_slices_atomic (fuel : nat) (primes : list Z)
    (max_base_prime max_prime num_slices : Z) (order : list Z) (c : counters)
    : option counters :=
  foldl
    (λ c slice,
       c ← c;
       prime_slice_atomic fuel
         (make_job primes max_base_prime max_prime num_slices slice) c)
    (Some c) order.

(** * Proofs *)

(** ** C integers *)

Lemma to_int_id z : fits_int z → to_int z = z.
Proof.
  unfold fits_int, INT_MIN, INT_MAX, to_int. intros H.
  rewrite Z.mod_small; lia.
Qed.

Lemma to_u64_id z : fits_u64 z → to_u64 z = z.
Proof.
  unfold fits_u64, UINT64_MAX, to_u64. intros H.
  rewrite Z.mod_small; lia.
Qed.

Lemma fits_int_bounds z : - 2147483648 <= z <= 2147483647 → fits_int z.
Proof. unfold fits_int, INT_MIN, INT_MAX. lia. Qed.

Lemma fits_u64_bounds z : 0 <= z <= 18446744073709551615 → fits_u64 z.
Proof. unfold fits_u64, UINT64_MAX. lia. Qed.

(** Rewrites away the conversions whose range condition [lia] proves. *)
Ltac unwrap :=
  repeat match goal with
  | |- context [to_int ?z] =>
      rewrite (to_int_id z) by (apply fits_int_bounds; lia)
  | |- context [to_u64 ?z] =>
      rewrite (to_u64_id z) by (apply fits_u64_bounds; lia)
  end.

Lemma land_15 x : Z.land x 15 = x mod 16.
Proof. change 15 with (Z.ones 4). by rewrite Z.land_ones. Qed.

Lemma land_7 x : Z.land x 7 = x mod 8.
Proof. change 7 with (Z.ones 3). by rewrite Z.land_ones. Qed.

Lemma land_1 x : Z.land x 1 = x mod 2.
Proof. change 1 with (Z.ones 1) at 1. by rewrite Z.land_ones. Qed.

Lemma shiftr_1 x : x ≫ 1 = x / 2.
Proof. by rewrite Z.shiftr_div_pow2. Qed.

Lemma shiftr_4 x : x ≫ 4 = x / 16.
Proof. by rewrite Z.shiftr_div_pow2. Qed.

Lemma round_up_16_spec x :
  0 <= x <= 2147483632 →
  round_up_16 x = 16 * ((x + 15) / 16).
Proof.
  intros Hx. unfold round_up_16.
  rewrite (to_int_id (- x)) by (apply fits_int_bounds; lia).
  rewrite land_15.
  pose proof (Z.mod_pos_bound (- x) 16 ltac:(lia)).
  rewrite to_int_id by (apply fits_int_bounds; lia).
  pose proof (Z.div_mod (- x) 16 ltac:(lia)).
  pose proof (Z.div_mod (x + 15) 16 ltac:(lia)).
  pose proof (Z.mod_pos_bound (x + 15) 16 ltac:(lia)).
  lia.
Qed.

Lemma round_up_16_bounds x :
  0 <= x <= 2147483632 →
  x <= round_up_16 x < x + 16 ∧ round_up_16 x mod 16 = 0.
Proof.
  intros Hx. rewrite round_up_16_spec by done.
  pose proof (Z.div_mod (x + 15) 16 ltac:(lia)).
  pose proof (Z.mod_pos_bound (x + 15) 16 ltac:(lia)).
  split; [lia|]. rewrite Z.mul_comm. apply Z.mod_mul. lia.
Qed.

Lemma ceil_sqrt_spec x :
  0 < x →
  0 < ceil_sqrt x ∧
  (ceil_sqrt x - 1) * (ceil_sqrt x - 1) < x <= ceil_sqrt x * ceil_sqrt x.
Proof.
  intros Hx. unfold ceil_sqrt.
  pose proof (Z.sqrt_up_spec x Hx) as H.
  pose proof (proj2 (Z.sqrt_up_pos x) Hx).
  rewrite <-!Z.sub_1_r in H. lia.
Qed.

Lemma ceil_sqrt_le x b : 0 < x → 0 <= b → x <= b * b → ceil_sqrt x <= b.
Proof.
  intros Hx Hb Hxb. pose proof (ceil_sqrt_spec x Hx). nia.
Qed.

Lemma ceil_div_spec a b :
  0 <= a → 0 < b → (ceil_div a b - 1) * b < a <= ceil_div a b * b.
Proof.
  intros Ha Hb. unfold ceil_div.
  pose proof (Z.div_mod (a + b - 1) b ltac:(lia)).
  pose proof (Z.mod_pos_bound (a + b - 1) b Hb). nia.
Qed.

(** ** The bit sieve *)

Lemma length_calloc n : length (calloc n) = Z.to_nat n.
Proof. apply length_replicate. Qed.

Lemma marked_calloc n v : marked (calloc n) v = false.
Proof.
  unfold marked, calloc.
  destruct (replicate _ _ !! _) as [b|] eqn:E; simpl.
  - apply lookup_replicate in E as [-> _]. apply Z.bits_0.
  - apply Z.bits_0.
Qed.

Lemma load_in_range (p : list Z) i :
  0 <= i < Z.of_nat (length p) →
  load p i = Some (default 0 (p !! Z.to_nat i)).
Proof.
  intros Hi. unfold load. rewrite decide_True by lia.
  destruct (lookup_lt_is_Some_2 p (Z.to_nat i)) as [b Hb]; [lia|].
  by rewrite Hb.
Qed.

Lemma byte_index_in_range (p : list Z) v :
  0 <= v < range p → 0 <= v ≫ 4 < Z.of_nat (length p).
Proof.
  unfold range. intros Hv. rewrite shiftr_4.
  split; [apply Z.div_pos; lia | apply Z.div_lt_upper_bound; lia].
Qed.

Lemma bit_index_bounds v : 0 <= Z.land (v ≫ 1) 7 < 8.
Proof. rewrite land_7. apply Z.mod_pos_bound. lia. Qed.

Lemma land_bit_test b k :
  0 <= k → (Z.land b (1 ≪ k) =? 0) = negb (Z.testbit b k).
Proof.
  intros Hk. rewrite Z.shiftl_1_l.
  destruct (Z.testbit b k) eqn:Hb; simpl.
  - apply Z.eqb_neq. intros H0.
    assert (Z.testbit (Z.land b (2 ^ k)) k = true) as Hbit.
    { by rewrite Z.land_spec, Hb, Z.pow2_bits_true. }
    rewrite H0, Z.bits_0 in Hbit. done.
  - apply Z.eqb_eq. apply Z.bits_inj'. intros m Hm.
    rewrite Z.land_spec, Z.bits_0, Z.pow2_bits_eqb by done.
    destruct (Z.eqb_spec k m) as [->|]; [by rewrite Hb | apply andb_false_r].
Qed.

Lemma is_prime_slice_marked p v :
  0 <= v < range p → is_prime_slice p v = Some (negb (marked p v)).
Proof.
  intros Hv. unfold is_prime_slice, marked, bit_mask.
  rewrite load_in_range by by apply byte_index_in_range.
  simpl. by rewrite land_bit_test by apply bit_index_bounds.
Qed.

Lemma is_prime_main_marked p v :
  0 <= v < range p → Z.odd v = true → is_prime_main p v = Some (negb (marked p v)).
Proof.
  intros Hv Hodd. rewrite <-is_prime_slice_marked by done.
  unfold is_prime_main, is_prime_slice, bit_mask.
  rewrite land_1, Zmod_odd, Hodd. done.
Qed.

(** Two values share a bit exactly when their halves are equal. *)
Lemma same_bit_iff v w :
  (w ≫ 1 =? v ≫ 1) =
  (w ≫ 4 =? v ≫ 4) && (Z.land (w ≫ 1) 7 =? Z.land (v ≫ 1) 7).
Proof.
  rewrite !land_7, !shiftr_1, !shiftr_4.
  replace (w / 16) with (w / 2 / 8) by (by rewrite Z.div_div by lia).
  replace (v / 16) with (v / 2 / 8) by (by rewrite Z.div_div by lia).
  pose proof (Z.div_mod (w / 2) 8 ltac:(lia)).
  pose proof (Z.div_mod (v / 2) 8 ltac:(lia)).
  destruct (Z.eqb_spec (w / 2) (v / 2)) as [->|Hne].
  - by rewrite !Z.eqb_refl.
  - symmetry. apply andb_false_iff.
    destruct (Z.eqb_spec (w / 2 / 8) (v / 2 / 8)); [right|by left].
    apply Z.eqb_neq. lia.
Qed.

Lemma odd_same_half v w :
  Z.odd v = true → Z.odd w = true → w ≫ 1 = v ≫ 1 → w = v.
Proof.
  intros Hv Hw. rewrite !shiftr_1. intros H.
  pose proof (Z.div_mod v 2 ltac:(lia)) as Ev.
  pose proof (Z.div_mod w 2 ltac:(lia)) as Ew.
  rewrite Zmod_odd, Hv in Ev. rewrite Zmod_odd, Hw in Ew. lia.
Qed.

Lemma mark_composite_spec p v :
  0 <= v < range p →
  ∃ p', mark_composite p v = Some p' ∧ length p' = length p ∧
        ∀ w, 0 <= w → marked p' w = marked p w || (w ≫ 1 =? v ≫ 1).
Proof.
  intros Hv. pose proof (byte_index_in_range p v Hv) as Hi.
  unfold mark_composite, or_store. rewrite load_in_range by done. simpl.
  eexists. split; [done|]. split; [apply length_insert|].
  intros w Hw. unfold marked. rewrite same_bit_iff.
  assert (0 <= w ≫ 4) as Hwi by (rewrite shiftr_4; apply Z.div_pos; lia).
  pose proof (bit_index_bounds w) as Hk. pose proof (bit_index_bounds v) as Hkv.
  destruct (Z.eqb_spec (w ≫ 4) (v ≫ 4)) as [->|Hne].
  - rewrite list_lookup_insert_eq by lia. simpl.
    unfold to_uchar, bit_mask.
    rewrite Z.mod_pow2_bits_low by lia.
    rewrite Z.lor_spec, Z.shiftl_1_l, Z.pow2_bits_eqb by lia.
    by rewrite (Z.eqb_sym (Z.land (v ≫ 1) 7)).
  - rewrite list_lookup_insert_ne by lia. simpl. by rewrite orb_false_r.
Qed.

(** ** The loop rule *)

Section ForLoopRule.
Context {St : Type} (cond : St → bool) (body : St → option St).
Variable Inv : St → Prop.
Variable measure : St → Z.
Hypothesis step : ∀ s, Inv s → cond s = true →
  0 < measure s ∧ ∃ s', body s = Some s' ∧ Inv s' ∧ measure s' < measure s.

(** An invariant kept by the body and a measure that the body lowers
    give a result as soon as the fuel covers the measure. *)
Lemma for_loop_rule fuel s :
  Inv s → measure s <= Z.of_nat fuel →
  ∃ s', for_loop cond body fuel s = Some s' ∧ Inv s' ∧ cond s' = false.
Proof.
  revert s. induction fuel as [|fuel IH]; intros s HI Hm.
  - simpl. destruct (cond s) eqn:Hc; [|by eauto].
    destruct (step s HI Hc). lia.
  - simpl. destruct (cond s) eqn:Hc; [|by eauto].
    destruct (step s HI Hc) as (Hpos & s' & -> & HI' & Hlt). simpl.
    apply IH; [done|lia].
Qed.
End ForLoopRule.

(** ** Primes *)

Lemma is_prime_spec n : is_prime n = true ↔ Z.prime n.
Proof.
  unfold is_prime, Z.prime.
  rewrite andb_true_iff, Z.ltb_lt, forallb_forall.
  split; intros [H1 H]; (split; [done|]).
  - intros d Hd Hdiv.
    assert (In d (seqZ 2 (n - 2))) as Hin.
    { apply list_elem_of_In, elem_of_seqZ. lia. }
    apply H in Hin. apply negb_true_iff, Z.eqb_neq in Hin.
    apply Hin, Z.mod_divide; [lia|done].
  - intros d Hin. apply list_elem_of_In, elem_of_seqZ in Hin.
    apply negb_true_iff, Z.eqb_neq. intros H0.
    apply (H d); [lia|]. apply Z.mod_divide; [lia|done].
Qed.

Lemma is_prime_false n : is_prime n = false ↔ ¬ Z.prime n.
Proof. rewrite <-is_prime_spec. by destruct (is_prime n). Qed.

Lemma Is_true_is_prime n : Is_true (is_prime n) ↔ Z.prime n.
Proof. by rewrite Is_true_true, is_prime_spec. Qed.

Lemma prime_dec n : {Z.prime n} + {¬ Z.prime n}.
Proof.
  destruct (is_prime n) eqn:E;
    [left; by apply is_prime_spec | right; by apply is_prime_false].
Qed.

Lemma forallb_false_witness {A} (f : A → bool) l :
  forallb f l = false → ∃ x, In x l ∧ f x = false.
Proof.
  induction l as [|a l IH]; simpl; [done|].
  destruct (f a) eqn:E; simpl.
  - intros (x & ? & ?)%IH. eauto.
  - eauto.
Qed.

Lemma not_prime_divisor n : 1 < n → ¬ Z.prime n → ∃ d, 1 < d < n ∧ (d | n).
Proof.
  intros Hn Hnp%is_prime_false. unfold is_prime in Hnp.
  apply andb_false_iff in Hnp as [?%Z.ltb_ge|Hall]; [lia|].
  apply forallb_false_witness in Hall as (d & Hin & Hd).
  apply list_elem_of_In, elem_of_seqZ in Hin.
  apply negb_false_iff, Z.eqb_eq in Hd.
  exists d. split; [lia|]. apply Z.mod_divide; [lia|done].
Qed.

Lemma proper_divisor_not_prime n d : 1 < d < n → (d | n) → ¬ Z.prime n.
Proof. intros Hd Hdiv [_ Hp]. by apply (Hp d). Qed.

Lemma even_not_prime v : Z.odd v = false → 2 < v → ¬ Z.prime v.
Proof.
  intros Hodd Hv. apply (proper_divisor_not_prime v 2); [lia|].
  apply Z.mod_divide; [lia|]. by rewrite Zmod_odd, Hodd.
Qed.

Lemma odd_divisor q n : (q | n) → Z.odd n = true → Z.odd q = true.
Proof.
  intros [k ->]. rewrite Z.odd_mul. by intros [_ ?]%andb_true_iff.
Qed.

Lemma odd_prime_ge_3 q : Z.prime q → Z.odd q = true → 3 <= q.
Proof.
  intros Hp Hodd. pose proof (Z.prime_ge_2 q Hp).
  destruct (decide (q = 2)) as [->|]; [done|lia].
Qed.

(** A composite number has a prime factor below its square root. *)
Lemma small_prime_factor n :
  1 < n → ¬ Z.prime n → ∃ q, Z.prime q ∧ (q | n) ∧ q * q <= n.
Proof.
  assert (∀ k : nat, ∀ n, n <= Z.of_nat k → 1 < n → ¬ Z.prime n →
            ∃ q, Z.prime q ∧ (q | n) ∧ q * q <= n) as Hstrong.
  { clear n. induction k as [|k IH]; intros n Hk Hn Hnp; [lia|].
    destruct (not_prime_divisor n Hn Hnp) as (d & Hd & [m Hm]).
    assert (1 < m < n) as Hmn by nia.
    (* the smaller of the two factors *)
    assert (∃ e, 1 < e < n ∧ (e | n) ∧ e * e <= n) as (e & He & Hen & Hsq).
    { destruct (decide (d <= m)).
      - exists d. split; [done|]. split; [by exists m|nia].
      - exists m. split; [done|]. split; [exists d; lia|nia]. }
    destruct (prime_dec e) as [Hpe|Hnpe].
    - by exists e.
    - destruct (IH e) as (q & Hq & Hqe & Hqq); [lia|lia|done|].
      exists q. split; [done|]. split; [by etrans|].
      assert (0 < q) by (pose proof (Z.prime_ge_2 q Hq); lia).
      assert (q <= e) by (apply Z.divide_pos_le; [lia|done]).
      nia. }
  intros Hn. apply (Hstrong (Z.to_nat n)). lia. done.
Qed.

(** The criterion that both sieves rely on. *)
Lemma odd_composite_iff w :
  Z.odd w = true → 3 <= w →
  ¬ Z.prime w ↔ ∃ q, Z.prime q ∧ 3 <= q ∧ q * q <= w ∧ (q | w).
Proof.
  intros Hodd Hw. split.
  - intros Hnp. destruct (small_prime_factor w) as (q & Hq & Hdiv & Hsq); [lia|done|].
    exists q. split; [done|]. split; [|done].
    apply odd_prime_ge_3; [done|]. by apply (odd_divisor q w).
  - intros (q & Hq & Hq3 & Hsq & Hdiv).
    apply (proper_divisor_not_prime w q); [nia|done].
Qed.

(** Stepping by [2 t] from an odd multiple of an odd [t] reaches exactly
    the odd multiples of [t]. *)
Lemma odd_multiple_step t a b :
  0 < t → Z.odd t = true → Z.odd a = true → Z.odd b = true → (t | a) →
  (b - a) mod (2 * t) = 0 ↔ (t | b).
Proof.
  intros Ht Hot Hoa Hob [k ->]. rewrite Z.mod_divide by lia. split.
  - intros [m Hm]. exists (k + 2 * m). lia.
  - intros [m ->]. exists ((m - k) / 2).
    rewrite Z.odd_mul, Hot, andb_true_r in Hoa, Hob.
    pose proof (Z.div_mod (m - k) 2 ltac:(lia)) as E.
    rewrite Zmod_odd, Z.odd_sub, Hoa, Hob in E. simpl in E. lia.
Qed.

(** ** Marking the multiples (lines 114-115 and 223-224) *)

Lemma stride_hit_true c0 t lim w :
  stride_hit c0 t lim w = true ↔ c0 <= w < lim ∧ (w - c0) mod (2 * t) = 0.
Proof.
  unfold stride_hit. rewrite !andb_true_iff, Z.leb_le, Z.ltb_lt, Z.eqb_eq. tauto.
Qed.

Lemma stride_hit_step c0 t lim c w :
  0 < t → c0 <= c < lim → (c - c0) mod (2 * t) = 0 →
  stride_hit c0 t (Z.min (c + 2 * t) lim) w = stride_hit c0 t c w || (w =? c).
Proof.
  intros Ht Hc Hmod. apply eq_true_iff_eq.
  rewrite orb_true_iff, !stride_hit_true, Z.eqb_eq. split.
  - intros [Hw Hwmod].
    destruct (decide (w < c)); [left; split; [lia|done]|right].
    apply Z.mod_divide in Hmod as [k Hk]; [|lia].
    apply Z.mod_divide in Hwmod as [m Hm]; [|lia].
    assert (m = k) by nia. subst m. lia.
  - intros [[Hw Hwmod]| ->]; (split; [lia|done]).
Qed.

Lemma mark_multiples_spec fuel t bound c0 p :
  0 < t → 0 <= c0 → Z.odd c0 = true →
  bound <= range p → bound + 2 * t <= INT_MAX → bound <= Z.of_nat fuel →
  ∃ p', mark_multiples fuel t bound c0 p = Some p' ∧ length p' = length p ∧
        ∀ w, 0 <= w → Z.odd w = true →
             marked p' w = marked p w || stride_hit c0 t bound w.
Proof.
  intros Ht Hc0 Hodd Hrange Hmax Hfuel. unfold INT_MAX in Hmax.
  unfold mark_multiples.
  pose (Inv := λ s : Z * list Z,
    c0 <= s.1 ∧ (s.1 - c0) mod (2 * t) = 0 ∧ length s.2 = length p ∧
    ∀ w, 0 <= w → Z.odd w = true →
         marked s.2 w = marked p w || stride_hit c0 t (Z.min s.1 bound) w).
  destruct (for_loop_rule
    (λ '(cprime, _), cprime <? bound)
    (λ '(cprime, p), p' ← mark_composite p cprime;
                     Some (cprime +ᵢ t *ᵢ 2, p'))
    Inv (λ s, bound - s.1) ) with (fuel := fuel) (s := (c0, p))
    as ([c' p'] & -> & (Hc' & _ & Hlen & Hbits) & Hexit).
  - intros [c q] (Hc & Hmod & Hlen & Hbits) Hcond. simpl in *.
    apply Z.ltb_lt in Hcond. split; [lia|].
    destruct (mark_composite_spec q c) as (q' & -> & Hlen' & Hbits').
    { unfold range in *. rewrite Hlen. lia. }
    simpl. unwrap. eexists. split; [done|]. unfold Inv. simpl.
    split; [|lia].
    split; [lia|]. split.
    { replace (c + t * 2 - c0) with (c - c0 + 1 * (2 * t)) by lia.
      by rewrite Z.mod_add by lia. }
    split; [congruence|].
    intros w Hw Hwodd. rewrite Hbits', Hbits by done.
    rewrite Z.min_l by lia.
    replace (c + t * 2) with (c + 2 * t) by lia.
    rewrite stride_hit_step by (done || lia).
    rewrite <-orb_assoc. f_equal. f_equal.
    destruct (Z.eqb_spec w c) as [->|Hne]; [apply Z.eqb_refl|].
    apply Z.eqb_neq. intros Heq. apply Hne, odd_same_half; try done.
    replace c with (c0 + 2 * ((c - c0) / 2)).
    { by rewrite Z.odd_add_mul_2. }
    apply Z.mod_divide in Hmod as [k Hk]; [|lia].
    replace (c - c0) with (k * t * 2) by lia. rewrite Z.div_mul by lia. lia.
  - unfold Inv. simpl. split; [lia|]. split.
    { by rewrite Z.sub_diag. }
    split; [done|]. intros w Hw Hwodd.
    assert (stride_hit c0 t (Z.min c0 bound) w = false) as ->.
    { apply not_true_is_false. rewrite stride_hit_true. lia. }
    by rewrite orb_false_r.
  - simpl. lia.
  - simpl in *. apply Z.ltb_ge in Hexit.
    eexists. split; [done|]. split; [done|].
    intros w Hw Hwodd. rewrite Hbits by done. by rewrite Z.min_r by lia.
Qed.

(** Applies [for_loop_rule] to the loop of the goal. *)
Ltac loop_rule Inv meas H :=
  match goal with
  | |- context [for_loop ?c ?b ?f ?s] =>
      assert (∃ s', for_loop c b f s = Some s' ∧ Inv s' ∧ c s' = false) as H;
      [ apply (for_loop_rule c b Inv meas) | ]
  end.

(** ** The base sieve (lines 108-115) *)

Lemma prime_odd q : Z.prime q → 3 <= q → Z.odd q = true.
Proof.
  intros Hq Hq3. destruct (Z.odd q) eqn:E; [done|].
  by destruct (even_not_prime q E ltac:(lia)).
Qed.

Lemma sieved_by_not_prime t w : sieved_by t w → ¬ Z.prime w.
Proof.
  intros (q & Hq & Hqt & Hsq & Hdiv).
  apply (proper_divisor_not_prime w q); [nia|done].
Qed.

Lemma not_sieved_prime t : Z.odd t = true → 3 <= t → ¬ sieved_by t t → Z.prime t.
Proof.
  intros Hodd Ht Hns. destruct (prime_dec t) as [|Hnp]; [done|].
  destruct Hns. apply odd_composite_iff in Hnp as (q & Hq & Hq3 & Hsq & Hdiv); try done.
  exists q. split; [done|]. split; [nia|done].
Qed.

Lemma sieved_by_step_prime t w :
  Z.odd t = true → 3 <= t → Z.prime t →
  sieved_by (t + 2) w ↔ sieved_by t w ∨ (t * t <= w ∧ (t | w)).
Proof.
  intros Hodd Ht Hp. split.
  - intros (q & Hq & Hqt & Hsq & Hdiv).
    destruct (decide (q < t)); [left; exists q; split; [done|]; split; [lia|done]|].
    destruct (decide (q = t)) as [->|]; [by right|].
    assert (q = t + 1) as -> by lia.
    apply prime_odd in Hq; [|lia]. rewrite Z.odd_add, Hodd in Hq. done.
  - intros [(q & Hq & Hqt & Hsq & Hdiv)|[Hsq Hdiv]].
    + exists q. split; [done|]. split; [lia|done].
    + exists t. split; [done|]. split; [lia|done].
Qed.

Lemma sieved_by_step_composite t w :
  Z.odd t = true → ¬ Z.prime t → sieved_by (t + 2) w ↔ sieved_by t w.
Proof.
  intros Hodd Hnp. split; intros (q & Hq & Hqt & Hsq & Hdiv).
  - exists q. split; [done|]. split; [|done].
    destruct (decide (q = t)) as [->|]; [done|].
    destruct (decide (q = t + 1)) as [->|]; [|lia].
    apply prime_odd in Hq; [|lia]. rewrite Z.odd_add, Hodd in Hq. done.
  - exists q. split; [done|]. split; [lia|done].
Qed.

Lemma sieved_by_complete t w bound :
  Z.odd w = true → 3 <= w < bound → 0 <= t → bound <= t * t →
  sieved_by t w ↔ ¬ Z.prime w.
Proof.
  intros Hodd Hw Ht Hbound. split; [apply sieved_by_not_prime|].
  intros (q & Hq & Hq3 & Hsq & Hdiv)%odd_composite_iff; [|done|lia].
  exists q. split; [done|]. split; [nia|done].
Qed.

Lemma stride_hit_square t bound w :
  3 <= t → Z.odd t = true → Z.odd w = true → w < bound →
  stride_hit (t * t) t bound w = true ↔ t * t <= w ∧ (t | w).
Proof.
  intros Ht Hot How Hw. rewrite stride_hit_true.
  rewrite (odd_multiple_step t (t * t) w); try done; try lia.
  - intuition lia.
  - by rewrite Z.odd_mul, Hot.
  - by exists t.
Qed.

(** The candidates of the base sieve and their squares stay in the range
    of [int] up to the bound [2147302912], the last multiple of 16 below
    [46339 * 46339]: from the next one on, line 112 squares 46341. *)
Lemma base_candidate_bound t B :
  Z.odd t = true → 3 <= t → B <= 2147302912 → (t - 2) * (t - 2) < B →
  t <= 46339 ∧ t * t <= 2147302921.
Proof.
  intros Hodd Ht HB Hsq.
  assert (t <= 46340).
  { destruct (decide (t <= 46340)) as [|Hgt]; [done|exfalso].
    assert (46339 * 46339 <= (t - 2) * (t - 2))
      by (apply Z.mul_le_mono_nonneg; lia). lia. }
  assert (t ≠ 46340) by (by intros ->).
  split; [lia|]. change 2147302921 with (46339 * 46339).
  apply Z.mul_le_mono_nonneg; lia.
Qed.

(** The base sieve ends, stays inside its buffer, marks 1 and leaves
    unmarked exactly the odd primes below its bound. *)
Lemma build_base_spec_int fuel B :
  16 <= B <= 2147302912 → B mod 16 = 0 → B <= Z.of_nat fuel →
  ∃ p, build_base fuel B = Some p ∧ range p = B ∧ marked p 1 = true ∧
       ∀ w, Z.odd w = true → 3 <= w < B → marked p w = false ↔ Z.prime w.
Proof.
  intros HB Hmod Hfuel. unfold build_base.
  assert (B = 16 * (B / 16)) as HB16.
  { pose proof (Z.div_mod B 16 ltac:(lia)). lia. }
  rewrite Z.quot_div_nonneg by lia.
  assert (range (calloc (B / 16)) = B) as Hrange0.
  { unfold range. rewrite length_calloc. lia. }
  change (or_store ?p 0 1) with (mark_composite p 1).
  destruct (mark_composite_spec (calloc (B / 16)) 1)
    as (p1 & -> & Hlen1 & Hbits1); [lia|].
  simpl.
  pose (Inv := λ s : Z * list Z,
    3 <= s.1 ∧ Z.odd s.1 = true ∧ (s.1 - 2) * (s.1 - 2) < B ∧ range s.2 = B ∧
    ∀ w, Z.odd w = true → 0 <= w < B →
         marked s.2 w = true ↔ w = 1 ∨ sieved_by s.1 w).
  loop_rule Inv (λ s : Z * list Z, B - s.1) Hloop.
  - intros [t p] (Ht & Hodd & Hsq & Hrange & Hbits) Hcond. simpl in *.
    pose proof (base_candidate_bound t B Hodd ltac:(lia) ltac:(lia) Hsq)
      as [Ht1 Ht2].
    revert Hcond. unwrap. intros Hcond%Z.ltb_lt.
    split; [nia|].
    rewrite is_prime_main_marked by (done || nia). simpl.
    assert (Inv (t + 2, p) → ∃ s',
      Some (t + 2, p) = Some s' ∧ Inv s' ∧ B - s'.1 < B - t) as Hkeep.
    { intros HI. eexists. split; [done|]. split; [done|]. simpl. lia. }
    destruct (marked p t) eqn:Hmt; simpl.
    + (* [t] is marked: it is composite *)
      apply Hkeep. unfold Inv. simpl.
      split; [lia|]. split; [by rewrite Z.odd_add, Hodd|]. split; [nia|].
      split; [done|]. intros w How Hw. rewrite Hbits by done.
      rewrite sieved_by_step_composite; [done|done|].
      assert (t = 1 ∨ sieved_by t t) as [->|Hs]
        by (apply Hbits; [done|nia|done]); [lia|].
      by apply sieved_by_not_prime in Hs.
    + (* [t] is unmarked: it is prime, and its multiples get marked *)
      assert (Z.prime t) as Hp.
      { apply not_sieved_prime; try done. intros Hs.
        assert (marked p t = true) as Hm by (apply Hbits; [done|nia|by right]).
        congruence. }
      destruct (mark_multiples_spec fuel t B (t * t) p)
        as (p' & -> & Hlen' & Hbits'); try lia.
      { by rewrite Z.odd_mul, Hodd. }
      { unfold INT_MAX. lia. }
      simpl. eexists. split; [done|]. split; [|simpl; lia].
      unfold Inv. simpl.
      split; [lia|]. split; [by rewrite Z.odd_add, Hodd|]. split; [nia|].
      split; [unfold range in *; congruence|].
      intros w How Hw. rewrite Hbits' by (done || lia).
      rewrite orb_true_iff, Hbits by done.
      rewrite stride_hit_square by (done || lia).
      rewrite sieved_by_step_prime by done. tauto.
  - unfold Inv. simpl. split; [lia|]. split; [done|]. split; [lia|].
    split; [unfold range in *; congruence|].
    intros w How Hw. rewrite Hbits1, marked_calloc by lia. simpl.
    rewrite Z.eqb_eq. split.
    + intros Hhalf. left. by apply odd_same_half.
    + intros [->|(q & Hq & Hq3 & _)]; [done|lia].
  - simpl. lia.
  - destruct Hloop as ([t p] & -> & (Ht & Hodd & Hsq & Hrange & Hbits) & Hexit).
    simpl in *.
    pose proof (base_candidate_bound t B Hodd ltac:(lia) ltac:(lia) Hsq)
      as [Ht1 Ht2].
    revert Hexit. unwrap. intros Hexit%Z.ltb_ge.
    exists p. split; [done|]. split; [done|]. split.
    + apply Hbits; [done|lia|by left].
    + intros w How Hw.
      rewrite <-not_true_iff_false, Hbits by (done || lia).
      rewrite (sieved_by_complete t w B) by (done || lia).
      split.
      * intros Hn. destruct (prime_dec w) as [|Hnp]; [done|].
        destruct Hn. by right.
      * intros Hp [->|Hnp]; [lia|done].
Qed.

Lemma build_base_spec fuel B :
  16 <= B <= 2 ^ 30 → B mod 16 = 0 → B <= Z.of_nat fuel →
  ∃ p, build_base fuel B = Some p ∧ range p = B ∧ marked p 1 = true ∧
       ∀ w, Z.odd w = true → 3 <= w < B → marked p w = false ↔ Z.prime w.
Proof. intros HB. apply build_base_spec_int. lia. Qed.

(** ** Ranges of values *)

Lemma seqZ_range_split lo mid hi :
  lo <= mid <= hi →
  seqZ lo (hi - lo) = seqZ lo (mid - lo) ++ seqZ mid (hi - mid).
Proof.
  intros H. replace (hi - lo) with ((mid - lo) + (hi - mid)) by lia.
  rewrite seqZ_app by lia. do 2 f_equal. lia.
Qed.

Lemma seqZ_one t : seqZ t 1 = [t].
Proof. rewrite seqZ_cons by lia. by rewrite seqZ_nil by (simpl; lia). Qed.

Lemma seqZ_two t : seqZ t 2 = [t; t + 1].
Proof. rewrite seqZ_cons by lia. simpl. by rewrite seqZ_one. Qed.

Lemma filter_ext_elem {A} (P Q : A → Prop)
    `{!∀ x, Decision (P x), !∀ x, Decision (Q x)} (l : list A) :
  (∀ x, x ∈ l → P x ↔ Q x) → filter P l = filter Q l.
Proof.
  induction l as [|a l IH]; intros Hext; [done|].
  rewrite !filter_cons.
  rewrite IH by (intros x Hx; apply Hext; by right).
  destruct (decide (P a)) as [HP|HP], (decide (Q a)) as [HQ|HQ]; try done.
  - destruct HQ. apply Hext; [by left|done].
  - destruct HP. apply Hext; [by left|done].
Qed.

Lemma length_filter_seqZ (P : Z → Prop) `{!∀ x, Decision (P x)} lo hi :
  0 <= Z.of_nat (length (filter P (seqZ lo (hi - lo)))) <= Z.max 0 (hi - lo).
Proof.
  pose proof (length_filter P (seqZ lo (hi - lo))) as Hl.
  rewrite length_seqZ in Hl. lia.
Qed.

(** The last element of a filtered range is its greatest. *)
Lemma last_filter_seqZ (P : Z → Prop) `{!∀ x, Decision (P x)} lo hi v :
  list.last (filter P (seqZ lo (hi - lo))) = Some v →
  v ∈ filter P (seqZ lo (hi - lo)) ∧
  ∀ w, w ∈ filter P (seqZ lo (hi - lo)) → w <= v.
Proof.
  intros Hlast. split; [by apply last_Some_elem_of|].
  intros w Hw.
  assert (lo <= v < hi) as Hv.
  { apply last_Some_elem_of, list_elem_of_filter in Hlast as [_ Hv].
    apply elem_of_seqZ in Hv. lia. }
  destruct (decide (w <= v)) as [|Hgt]; [done|exfalso].
  apply list_elem_of_filter in Hw as [HPw Hw]. apply elem_of_seqZ in Hw.
  rewrite (seqZ_range_split lo (v + 1) hi), list.filter_app in Hlast by lia.
  assert (w ∈ filter P (seqZ (v + 1) (hi - (v + 1)))) as Hin.
  { apply list_elem_of_filter. split; [done|]. apply elem_of_seqZ. lia. }
  destruct (filter P (seqZ (v + 1) (hi - (v + 1)))) as [|x l] eqn:E.
  { by apply not_elem_of_nil in Hin. }
  rewrite last_app in Hlast.
  destruct (list.last (x :: l)) as [y|] eqn:Ey; [|by apply last_None in Ey].
  simplify_eq. apply last_Some_elem_of in Ey. rewrite <-E in Ey.
  apply list_elem_of_filter in Ey as [_ Ey]. apply elem_of_seqZ in Ey. lia.
Qed.

(** ** Unmarked odd values *)

Lemma unmarked_odds_empty p lo hi : hi <= lo → unmarked_odds p lo hi = [].
Proof. intros H. unfold unmarked_odds. by rewrite seqZ_nil by lia. Qed.

Lemma unmarked_odds_snoc p lo t :
  lo <= t → Z.odd t = true →
  unmarked_odds p lo (t + 2) =
  unmarked_odds p lo t ++ (if marked p t then [] else [t]).
Proof.
  intros Hlo Hodd. unfold unmarked_odds.
  rewrite (seqZ_range_split lo t (t + 2)), list.filter_app by lia. f_equal.
  replace (t + 2 - t) with 2 by lia. rewrite seqZ_two.
  rewrite filter_cons, filter_cons, filter_nil.
  rewrite Z.odd_add, Hodd. simpl.
  by destruct (marked p t).
Qed.

Lemma unmarked_odds_even_end p lo m :
  Z.odd m = false → unmarked_odds p lo (m + 1) = unmarked_odds p lo m.
Proof.
  intros Heven. destruct (decide (lo <= m)) as [Hlo|Hlo].
  - unfold unmarked_odds.
    rewrite (seqZ_range_split lo m (m + 1)), list.filter_app by lia.
    replace (m + 1 - m) with 1 by lia.
    rewrite seqZ_one, filter_cons, filter_nil, Heven. simpl. by rewrite app_nil_r.
  - by rewrite !unmarked_odds_empty by lia.
Qed.

(** A scan that stops at the first odd [t] with [m <= t] has seen the
    unmarked odd values below [m]. *)
Lemma unmarked_odds_stop p lo m t :
  Z.odd t = true → m <= t → t <= Z.max lo (m + 1) → Z.odd lo = true →
  unmarked_odds p lo t = unmarked_odds p lo m.
Proof.
  intros Hodd Hm Ht Hlo.
  destruct (decide (t <= lo)).
  { by rewrite !unmarked_odds_empty by lia. }
  destruct (decide (t = m)) as [->|]; [done|].
  assert (t = m + 1) as -> by lia.
  apply unmarked_odds_even_end.
  rewrite Z.odd_add in Hodd. by destruct (Z.odd m).
Qed.

Lemma unmarked_odds_bounds p lo hi :
  0 <= Z.of_nat (length (unmarked_odds p lo hi)) <= Z.max 0 (hi - lo).
Proof. apply length_filter_seqZ. Qed.


(** ** The seeding scan (lines 117-123) *)

Lemma scan_base_spec_int fuel p B N junk :
  0 <= B <= 2147302912 → B <= range p → 0 <= N <= UINT64_MAX → B <= Z.of_nat fuel →
  ∃ c, scan_base fuel p B N junk = Some c ∧
       total_primes c = 1 + Z.of_nat (length (unmarked_odds p 3 (Z.min B N))) ∧
       last_prime c = default junk (list.last (unmarked_odds p 3 (Z.min B N))).
Proof.
  intros HB Hrange HN Hfuel. unfold UINT64_MAX in HN. unfold scan_base.
  pose (Inv := λ s : Z * counters,
    3 <= s.1 ∧ Z.odd s.1 = true ∧ s.1 <= Z.max 3 (Z.min B N + 1) ∧
    total_primes s.2 = 1 + Z.of_nat (length (unmarked_odds p 3 s.1)) ∧
    last_prime s.2 = default junk (list.last (unmarked_odds p 3 s.1))).
  loop_rule Inv (λ s : Z * counters, B - s.1) Hloop.
  - intros [t c] (Ht & Hodd & Hle & Htot & Hlast) Hcond. simpl in *.
    revert Hcond. unwrap. intros [Hc1%Z.ltb_lt Hc2%Z.ltb_lt]%andb_true_iff.
    split; [lia|].
    rewrite is_prime_main_marked by (done || lia). simpl.
    pose proof (unmarked_odds_bounds p 3 t).
    unwrap. eexists. split; [done|]. split; [|simpl; lia].
    unfold Inv. simpl.
    split; [lia|]. split; [by rewrite Z.odd_add, Hodd|]. split; [lia|].
    rewrite unmarked_odds_snoc by (done || lia).
    destruct (marked p t); simpl.
    + by rewrite app_nil_r.
    + rewrite length_app, last_snoc. simpl. lia.
  - unfold Inv. rewrite unmarked_odds_empty by (simpl; lia). simpl. lia.
  - simpl. lia.
  - destruct Hloop as ([t c] & -> & (Ht & Hodd & Hle & Htot & Hlast) & Hexit).
    simpl in *. exists c. split; [done|].
    rewrite <-(unmarked_odds_stop p 3 (Z.min B N) t); try done.
    revert Hexit. unwrap. intros [?%Z.ltb_ge|?%Z.ltb_ge]%andb_false_iff; lia.
Qed.

Lemma scan_base_spec fuel p B N junk :
  0 <= B <= 2 ^ 30 → B <= range p → 0 <= N <= UINT64_MAX → B <= Z.of_nat fuel →
  ∃ c, scan_base fuel p B N junk = Some c ∧
       total_primes c = 1 + Z.of_nat (length (unmarked_odds p 3 (Z.min B N))) ∧
       last_prime c = default junk (list.last (unmarked_odds p 3 (Z.min B N))).
Proof. intros HB. apply scan_base_spec_int. lia. Qed.

(** ** The counting scan of a slice (lines 226-230) *)

Lemma scan_slice_spec fuel start count s :
  0 <= count <= 2 ^ 30 → count <= range s →
  0 <= start → start + count <= UINT64_MAX → count <= Z.of_nat fuel →
  ∃ c, scan_slice fuel start count s = Some c ∧
       total_primes c = Z.of_nat (length (unmarked_odds s 1 count)) ∧
       last_prime c =
         from_option (Z.add start) 0 (list.last (unmarked_odds s 1 count)).
Proof.
  intros Hcount Hrange Hstart Hmax Hfuel. unfold UINT64_MAX in Hmax.
  unfold scan_slice.
  pose (Inv := λ st : Z * counters,
    1 <= st.1 ∧ Z.odd st.1 = true ∧ st.1 <= Z.max 1 (count + 1) ∧
    total_primes st.2 = Z.of_nat (length (unmarked_odds s 1 st.1)) ∧
    last_prime st.2 =
      from_option (Z.add start) 0 (list.last (unmarked_odds s 1 st.1))).
  loop_rule Inv (λ st : Z * counters, count - st.1) Hloop.
  - intros [t c] (Ht & Hodd & Hle & Htot & Hlast) Hcond. simpl in *.
    apply Z.ltb_lt in Hcond. split; [lia|].
    rewrite is_prime_slice_marked by lia. simpl.
    pose proof (unmarked_odds_bounds s 1 t).
    unwrap. eexists. split; [done|]. split; [|simpl; lia].
    unfold Inv. simpl.
    split; [lia|]. split; [by rewrite Z.odd_add, Hodd|]. split; [lia|].
    rewrite unmarked_odds_snoc by (done || lia).
    destruct (marked s t); simpl.
    + by rewrite app_nil_r.
    + rewrite length_app, last_snoc. simpl. lia.
  - unfold Inv. rewrite unmarked_odds_empty by (simpl; lia). simpl. lia.
  - simpl. lia.
  - destruct Hloop as ([t c] & -> & (Ht & Hodd & Hle & Htot & Hlast) & Hexit).
    simpl in *. exists c. split; [done|]. apply Z.ltb_ge in Hexit.
    by rewrite <-(unmarked_odds_stop s 1 count t).
Qed.

(** ** The first multiple inside a slice (line 223) *)

Section FirstOffset.
Variables start t : Z.
Hypothesis Hstart : 0 <= start <= 2 ^ 62.
Hypothesis Ht : 3 <= t <= 2 ^ 30 - 1.

Let quotient := (start + t - 1) / (t * 2).
Let multiple := (quotient * 2 + 1) * t.

Lemma first_offset_quotient :
  0 <= quotient ∧ t * 2 * quotient <= start + t - 1 < t * 2 * quotient + t * 2.
Proof.
  unfold quotient.
  pose proof (Z.div_mod (start + t - 1) (t * 2) ltac:(lia)).
  pose proof (Z.mod_pos_bound (start + t - 1) (t * 2) ltac:(lia)).
  split; [apply Z.div_pos; lia|lia].
Qed.

Lemma first_offset_range : 0 <= multiple - start < 2 * t.
Proof. pose proof first_offset_quotient. unfold multiple. lia. Qed.

Lemma first_offset_fits :
  Forall (λ '(ty, z), fits ty z) (first_offset_steps start t).
Proof.
  pose proof first_offset_quotient as Hq. pose proof first_offset_range as Hr.
  unfold first_offset_steps. fold quotient. fold multiple.
  assert (quotient <= 2 ^ 62) by nia.
  repeat apply Forall_cons_2; try apply Forall_nil_2; simpl;
    (apply fits_int_bounds || apply fits_u64_bounds); lia.
Qed.

Lemma first_offset_exact : first_offset start t = multiple - start.
Proof.
  pose proof first_offset_quotient as Hq. pose proof first_offset_range as Hr.
  unfold first_offset.
  rewrite (to_u64_id t) by (apply fits_u64_bounds; lia).
  rewrite (to_int_id (t * 2)) by (apply fits_int_bounds; lia).
  rewrite (to_u64_id (t * 2)) by (apply fits_u64_bounds; lia).
  rewrite (to_u64_id (start + t)) by (apply fits_u64_bounds; lia).
  rewrite (to_u64_id (start + t - 1)) by (apply fits_u64_bounds; lia).
  fold quotient. assert (quotient <= 2 ^ 62) by nia.
  rewrite (to_u64_id quotient) by (apply fits_u64_bounds; lia).
  rewrite (to_u64_id (quotient * 2)) by (apply fits_u64_bounds; lia).
  rewrite (to_u64_id (quotient * 2 + 1)) by (apply fits_u64_bounds; lia).
  fold multiple.
  rewrite (to_u64_id multiple) by (apply fits_u64_bounds; lia).
  rewrite (to_u64_id (multiple - start)) by (apply fits_u64_bounds; lia).
  apply to_int_id, fits_int_bounds. lia.
Qed.

Hypothesis Hodd : Z.odd t = true.

Lemma first_offset_multiple :
  (t | start + (multiple - start)) ∧ Z.odd (start + (multiple - start)) = true.
Proof.
  replace (start + (multiple - start)) with multiple by lia. unfold multiple.
  split; [by eexists|].
  by rewrite Z.odd_mul, Hodd, Z.add_comm, Z.mul_comm, Z.odd_add_mul_2.
Qed.

Lemma first_offset_least x :
  Z.odd x = true → (t | x) → start <= x → start + (multiple - start) <= x.
Proof.
  intros Hx [k ->] Hge. pose proof first_offset_quotient as Hq.
  rewrite Z.odd_mul, Hodd, andb_true_r in Hx.
  replace (start + (multiple - start)) with multiple by lia. unfold multiple.
  assert (quotient * 2 - 1 < k) as Hk by nia.
  assert (k ≠ quotient * 2).
  { intros ->. by rewrite Z.mul_comm, Z.odd_mul in Hx. }
  nia.
Qed.

(** The values that the marking loop passes through from the first
    offset are the odd offsets of the multiples of [t] in the window. *)
Lemma stride_hit_first_offset bound c :
  Z.odd start = false → 0 <= c → Z.odd c = true →
  stride_hit (first_offset start t) t bound c = true ↔
  c < bound ∧ (t | start + c).
Proof.
  intros Heven Hc Hoc. rewrite first_offset_exact, stride_hit_true.
  destruct first_offset_multiple as [Hdiv Hom].
  assert (Z.odd (start + c) = true) as Hosc by by rewrite Z.odd_add, Heven, Hoc.
  rewrite <-(odd_multiple_step t (start + (multiple - start)) (start + c))
    by (done || lia).
  replace (start + c - (start + (multiple - start)))
    with (c - (multiple - start)) by lia.
  split; [tauto|]. intros [Hlt Hmod]. split; [|done]. split; [|done].
  assert (t | start + c) as Hdivc.
  { apply (odd_multiple_step t (start + (multiple - start)) (start + c));
      try done; try lia.
    by replace (start + c - (start + (multiple - start)))
      with (c - (multiple - start)) by lia. }
  pose proof (first_offset_least (start + c) Hosc Hdivc). lia.
Qed.
End FirstOffset.

(** ** The sieve of a slice (lines 221-224) *)

Lemma has_factor_below_step_prime t w :
  Z.odd t = true → 3 <= t → Z.prime t →
  has_factor_below (t + 2) w ↔ has_factor_below t w ∨ (t | w).
Proof.
  intros Hodd Ht Hp. split.
  - intros (q & Hq & Hqt & Hdiv).
    destruct (decide (q < t)); [left; exists q; split; [done|]; split; [lia|done]|].
    destruct (decide (q = t)) as [->|]; [by right|].
    assert (q = t + 1) as -> by lia.
    apply prime_odd in Hq; [|lia]. rewrite Z.odd_add, Hodd in Hq. done.
  - intros [(q & Hq & Hqt & Hdiv)|Hdiv].
    + exists q. split; [done|]. split; [lia|done].
    + exists t. split; [done|]. split; [lia|done].
Qed.

Lemma has_factor_below_step_composite t w :
  Z.odd t = true → ¬ Z.prime t →
  has_factor_below (t + 2) w ↔ has_factor_below t w.
Proof.
  intros Hodd Hnp. split; intros (q & Hq & Hqt & Hdiv).
  - exists q. split; [done|]. split; [|done].
    destruct (decide (q = t)) as [->|]; [done|].
    destruct (decide (q = t + 1)) as [->|]; [|lia].
    apply prime_odd in Hq; [|lia]. rewrite Z.odd_add, Hodd in Hq. done.
  - exists q. split; [done|]. split; [lia|done].
Qed.

Lemma has_factor_below_stop t limit w :
  Z.odd t = true → limit <= t <= Z.max 3 (limit + 1) →
  has_factor_below t w ↔ has_factor_below limit w.
Proof.
  intros Hodd Ht. split; intros (q & Hq & Hqt & Hdiv).
  - exists q. split; [done|]. split; [|done].
    destruct (decide (q < limit)); [lia|].
    assert (q = limit ∧ t = limit + 1) as [-> ->] by lia.
    apply prime_odd in Hq; [|lia]. rewrite Z.odd_add, Hq in Hodd. done.
  - exists q. split; [done|]. split; [lia|done].
Qed.

Lemma has_factor_below_complete limit w :
  Z.odd w = true → 3 <= w → 0 <= limit → limit <= w < limit * limit →
  has_factor_below limit w ↔ ¬ Z.prime w.
Proof.
  intros Hodd Hw Hlim0 Hlim. split.
  - intros (q & Hq & Hqt & Hdiv).
    apply (proper_divisor_not_prime w q); [lia|done].
  - intros (q & Hq & Hq3 & Hsq & Hdiv)%odd_composite_iff; [|done|lia].
    exists q. split; [done|]. split; [nia|done].
Qed.

Lemma sieve_slice_spec fuel cxt count limit s :
  let start := slice_start cxt in
  0 <= start <= 2 ^ 62 → Z.odd start = false →
  0 <= count <= 2 ^ 30 → count <= range s →
  limit <= 2 ^ 28 → limit <= range (base_primes cxt) →
  (∀ w, Z.odd w = true → 3 <= w < limit →
        marked (base_primes cxt) w = false ↔ Z.prime w) →
  limit <= Z.of_nat fuel → count <= Z.of_nat fuel →
  ∃ s', sieve_slice fuel cxt count limit s = Some s' ∧ length s' = length s ∧
        ∀ c, 0 <= c → Z.odd c = true →
             marked s' c = true ↔
             marked s c = true ∨ (c < count ∧ has_factor_below limit (start + c)).
Proof.
  intros start Hstart Heven Hcount Hrange Hlimit Hbrange Hbase Hfuel1 Hfuel2.
  unfold sieve_slice. fold start.
  pose (Inv := λ st : Z * list Z,
    3 <= st.1 ∧ Z.odd st.1 = true ∧ st.1 <= Z.max 3 (limit + 1) ∧
    length st.2 = length s ∧
    ∀ c, 0 <= c → Z.odd c = true →
         marked st.2 c = true ↔
         marked s c = true ∨ (c < count ∧ has_factor_below st.1 (start + c))).
  loop_rule Inv (λ st : Z * list Z, limit - st.1) Hloop.
  - intros [t s1] (Ht & Hodd & Hle & Hlen & Hbits) Hcond. simpl in *.
    apply Z.ltb_lt in Hcond. split; [lia|].
    rewrite is_prime_slice_marked by lia. simpl.
    destruct (marked (base_primes cxt) t) eqn:Hmt; simpl.
    + (* [t] is marked in the base: it is composite *)
      assert (¬ Z.prime t) as Hnp.
      { intros Hp. apply Hbase in Hp; [congruence|done|lia]. }
      unwrap. eexists. split; [done|]. split; [|simpl; lia].
      unfold Inv. simpl.
      split; [lia|]. split; [by rewrite Z.odd_add, Hodd|]. split; [lia|].
      split; [done|]. intros c Hc Hoc.
      by rewrite Hbits, has_factor_below_step_composite.
    + (* [t] is unmarked in the base: it is prime *)
      assert (Z.prime t) as Hp by (apply Hbase; [done|lia|done]).
      destruct (mark_multiples_spec fuel t count (first_offset start t) s1)
        as (s2 & -> & Hlen2 & Hbits2); try lia.
      { rewrite first_offset_exact by lia.
        pose proof (first_offset_range start t ltac:(lia) ltac:(lia)). lia. }
      { rewrite first_offset_exact by lia.
        destruct (first_offset_multiple start t Hodd) as [_ Hom].
        rewrite Z.odd_add, Heven in Hom. by destruct (Z.odd _). }
      { unfold range in *. rewrite Hlen. lia. }
      { unfold INT_MAX. lia. }
      simpl. unwrap. eexists. split; [done|]. split; [|simpl; lia].
      unfold Inv. simpl.
      split; [lia|]. split; [by rewrite Z.odd_add, Hodd|]. split; [lia|].
      split; [congruence|]. intros c Hc Hoc.
      rewrite Hbits2, orb_true_iff, Hbits by done.
      rewrite stride_hit_first_offset by (done || lia).
      rewrite has_factor_below_step_prime by done. tauto.
  - unfold Inv. simpl. split; [lia|]. split; [done|]. split; [lia|].
    split; [done|]. intros c Hc Hoc. split; [by left|].
    intros [|[_ (q & _ & ? & _)]]; [done|lia].
  - simpl. lia.
  - destruct Hloop as ([t s'] & -> & (Ht & Hodd & Hle & Hlen & Hbits) & Hexit).
    simpl in *. apply Z.ltb_ge in Hexit.
    exists s'. split; [done|]. split; [done|].
    intros c Hc Hoc. rewrite Hbits by done.
    by rewrite (has_factor_below_stop t limit) by (done || lia).
Qed.

(** ** Counting primes in ranges *)

Lemma primes_in_split lo mid hi :
  lo <= mid <= hi → primes_in lo hi = primes_in lo mid ++ primes_in mid hi.
Proof.
  intros H. unfold primes_in.
  by rewrite (seqZ_range_split lo mid hi), list.filter_app.
Qed.

Lemma primes_in_empty lo hi : hi <= lo → primes_in lo hi = [].
Proof. intros H. unfold primes_in. by rewrite seqZ_nil by lia. Qed.

Lemma elem_of_primes_in lo hi v : v ∈ primes_in lo hi ↔ Z.prime v ∧ lo <= v < hi.
Proof.
  unfold primes_in. rewrite list_elem_of_filter, elem_of_seqZ, Is_true_is_prime.
  intuition lia.
Qed.

Lemma primes_in_bounds lo hi :
  0 <= Z.of_nat (length (primes_in lo hi)) <= Z.max 0 (hi - lo).
Proof. apply length_filter_seqZ. Qed.

Lemma primes_below_3 : primes_in 0 3 = [2].
Proof. by vm_compute. Qed.

Lemma pi_from_3 n : 3 <= n → pi n = 1 + Z.of_nat (length (primes_in 3 n)).
Proof.
  intros Hn. unfold pi.
  rewrite (primes_in_split 0 3 n), primes_below_3 by lia. simpl length. lia.
Qed.

Lemma pi_split m n :
  0 <= m <= n → pi n = pi m + Z.of_nat (length (primes_in m n)).
Proof.
  intros H. unfold pi. rewrite (primes_in_split 0 m n), length_app by lia. lia.
Qed.

(** The last prime of a range is the greatest prime below its end, as soon
    as the range holds one. *)
Lemma last_primes_in lo hi v :
  list.last (primes_in lo hi) = Some v → greatest_prime_below hi v.
Proof.
  intros Hlast. unfold primes_in in Hlast.
  destruct (last_filter_seqZ _ lo hi v Hlast) as [Hin Hmax].
  fold (primes_in lo hi) in Hin, Hmax.
  apply elem_of_primes_in in Hin as [Hp Hv].
  split; [done|]. split; [lia|]. intros q Hq Hqhi.
  destruct (decide (lo <= q)); [|lia].
  apply Hmax, elem_of_primes_in. split; [done|lia].
Qed.

Lemma filter_fmap {A B} (f : A → B) (P : B → Prop) `{!∀ x, Decision (P x)}
    (l : list A) :
  filter P (f <$> l) = f <$> filter (P ∘ f) l.
Proof.
  induction l as [|a l IH]; [done|]. rewrite fmap_cons, !filter_cons, IH. simpl.
  by destruct (decide (P (f a))).
Qed.

(** What the seeding scan has read is the list of the odd primes, when the
    buffer is a correct sieve. *)
Lemma unmarked_odds_primes p m :
  (∀ w, Z.odd w = true → 3 <= w < m → marked p w = false ↔ Z.prime w) →
  unmarked_odds p 3 m = primes_in 3 m.
Proof.
  intros Hp. apply filter_ext_elem. intros v Hv%elem_of_seqZ.
  rewrite Is_true_is_prime. destruct (Z.odd v) eqn:Hodd; simpl.
  - rewrite <-Hp by (done || lia). by destruct (marked p v).
  - split; [done|]. intros Hprime.
    by destruct (even_not_prime v Hodd ltac:(lia)).
Qed.

(** The same for the scan of a slice, which reads offsets. *)
Lemma unmarked_odds_slice_primes s start count :
  Z.odd start = false → 2 < start →
  (∀ c, Z.odd c = true → 0 <= c < count →
        marked s c = false ↔ Z.prime (start + c)) →
  Z.add start <$> unmarked_odds s 1 count = primes_in start (start + count).
Proof.
  intros Heven Hstart Hs. unfold primes_in.
  replace (start + count - start) with (1 + (count - 1)) by lia.
  destruct (decide (1 <= count)) as [Hc|Hc]; cycle 1.
  { rewrite unmarked_odds_empty by lia. by rewrite seqZ_nil by lia. }
  rewrite seqZ_app, list.filter_app, seqZ_one by lia.
  rewrite filter_cons, decide_False, filter_nil; cycle 1.
  { rewrite Is_true_is_prime. apply even_not_prime; [done|lia]. }
  simpl. rewrite <-(fmap_add_seqZ start 1), filter_fmap. f_equal.
  apply filter_ext_elem. intros c Hin%elem_of_seqZ. simpl.
  rewrite Is_true_is_prime. destruct (Z.odd c) eqn:Hodd; simpl.
  - rewrite <-Hs by (done || lia). by destruct (marked s c).
  - split; [done|]. intros Hprime.
    assert (Z.odd (start + c) = false) as Hsum by by rewrite Z.odd_add, Heven, Hodd.
    by destruct (even_not_prime (start + c) Hsum ltac:(lia)).
Qed.

(** ** One slice job (lines 213-259) *)

(** The result of the merge in terms of the primes of the window. *)
Lemma prime_slice_spec fuel cxt shared :
  let start := slice_start cxt in
  let values := slice_values cxt in
  let B := range (base_primes cxt) in
  16 <= B <= 2 ^ 28 → B <= start <= 2 ^ 60 → Z.odd start = false →
  0 <= values <= B → B mod 16 = 0 →
  start + round_up_16 values <= B * B →
  (∀ w, Z.odd w = true → 3 <= w < B →
        marked (base_primes cxt) w = false ↔ Z.prime w) →
  0 <= total_primes shared <= 2 ^ 62 →
  B <= Z.of_nat fuel →
  prime_slice fuel cxt shared =
  Some (Counters
    (total_primes shared + Z.of_nat (length (primes_in start (start + values))))
    (default 0 (list.last (primes_in start (start + values))))).
Proof.
  intros start values B HB Hstart Heven Hvalues HB16 Hsq Hbase Hshared Hfuel.
  unfold prime_slice. fold start values (round_up_16 values).
  destruct (round_up_16_bounds values ltac:(lia)) as [Hal Hal16].
  set (aligned := round_up_16 values) in *.
  assert (aligned <= B) as HalB.
  { pose proof (Z.div_mod aligned 16 ltac:(lia)).
    pose proof (Z.div_mod B 16 ltac:(lia)). lia. }
  rewrite (to_u64_id aligned) by (apply fits_u64_bounds; lia).
  rewrite (to_u64_id (start + aligned)) by (apply fits_u64_bounds; lia).
  destruct (ceil_sqrt_spec (start + aligned) ltac:(lia)) as (Hl0 & Hl1 & Hl2).
  pose proof (ceil_sqrt_le (start + aligned) B ltac:(lia) ltac:(lia) Hsq) as HlB.
  set (limit := ceil_sqrt (start + aligned)) in *.
  rewrite (to_int_id limit) by (apply fits_int_bounds; lia).
  rewrite Z.quot_div_nonneg by lia.
  assert (range (calloc (aligned / 16)) = aligned) as Hrange.
  { unfold range. rewrite length_calloc.
    pose proof (Z.div_mod aligned 16 ltac:(lia)).
    assert (0 <= aligned / 16) by (apply Z.div_pos; lia). lia. }
  destruct (sieve_slice_spec fuel cxt aligned limit (calloc (aligned / 16)))
    as (s & -> & Hlen & Hbits); fold start; try lia; try done.
  { intros w How Hw. apply Hbase; [done|lia]. }
  simpl.
  assert (range s = aligned) as Hranges.
  { unfold range in *. by rewrite Hlen. }
  destruct (scan_slice_spec fuel start values s) as (c & -> & Htot & Hlast);
    try lia.
  { unfold UINT64_MAX. lia. }
  simpl. unfold merge.
  rewrite <-(unmarked_odds_slice_primes s start values); try done; try lia.
  - rewrite length_fmap, fmap_last, Htot, Hlast.
    pose proof (unmarked_odds_bounds s 1 values).
    rewrite to_u64_id by (apply fits_u64_bounds; lia).
    by destruct (list.last _).
  - intros c' Hoc Hc.
    rewrite <-not_true_iff_false, Hbits, marked_calloc by (done || lia).
    assert (Z.odd (start + c') = true) as Hsum by by rewrite Z.odd_add, Heven, Hoc.
    rewrite has_factor_below_complete by (done || lia).
    split.
    + intros Hn. destruct (prime_dec (start + c')) as [|Hnp]; [done|].
      destruct Hn. right. split; [lia|done].
    + intros Hp [|[_ Hnp]]; done.
Qed.

(** ** The driver (lines 151-185) *)

Lemma multiple_of_16_even B : B mod 16 = 0 → Z.odd B = false.
Proof.
  intros H. pose proof (Z.div_mod B 16 ltac:(lia)) as E.
  replace B with (0 + 2 * (8 * (B / 16))) by lia. by rewrite Z.odd_add_mul_2.
Qed.

Lemma round_up_16_le x y :
  0 <= x <= 2147483632 → x <= y → y mod 16 = 0 → round_up_16 x <= y.
Proof.
  intros Hx Hy Hmod. rewrite round_up_16_spec by lia.
  pose proof (Z.div_mod y 16 ltac:(lia)).
  pose proof (Z.div_mod (x + 15) 16 ltac:(lia)).
  pose proof (Z.mod_pos_bound (x + 15) 16 ltac:(lia)). lia.
Qed.

(** The window of the job for slice [i] (lines 155 and 163-170). *)
Lemma make_job_window primes B N S i :
  16 <= B <= 2 ^ 28 → S * B < N <= (S + 1) * B → N <= B * B → 1 <= i <= S →
  slice_start (make_job primes B N S i) = B * i ∧
  slice_values (make_job primes B N S i) = Z.min N (B * (i + 1)) - B * i.
Proof.
  intros HB HN Hsq Hi. assert (S < B) by nia.
  assert (B * i <= B * S) by (apply Z.mul_le_mono_nonneg_l; lia).
  assert (B * B <= 2 ^ 28 * 2 ^ 28) by (apply Z.mul_le_mono_nonneg; lia).
  assert (B * (i + 1) = B * i + B) by lia.
  simpl. unwrap. split; [done|].
  destruct (Z.eqb_spec i S) as [->|Hne]; unwrap; [lia|].
  assert (B * (i + 1) <= B * S) by (apply Z.mul_le_mono_nonneg_l; lia). lia.
Qed.

Section Driver.
Variables (fuel : nat) (primes : list Z) (N S : Z).
Let B := range primes.
Hypothesis HB : 16 <= B <= 2 ^ 28.
Hypothesis HB16 : B mod 16 = 0.
Hypothesis HS : 1 <= S.
Hypothesis HN : S * B < N <= (S + 1) * B.
Hypothesis Hsq : N <= B * B.
Hypothesis Hbase : ∀ w, Z.odd w = true → 3 <= w < B →
  marked primes w = false ↔ Z.prime w.
Hypothesis Hfuel : B <= Z.of_nat fuel ∧ S <= Z.of_nat fuel.

(** One job adds the primes of its window and leaves the last of them,
    or 0, in [last_prime]. *)
Lemma make_job_spec i c :
  1 <= i <= S → 0 <= total_primes c <= 2 ^ 62 →
  prime_slice fuel (make_job primes B N S i) c =
  Some (Counters
    (total_primes c
       + Z.of_nat (length (primes_in (B * i) (Z.min N (B * (i + 1))))))
    (default 0 (list.last (primes_in (B * i) (Z.min N (B * (i + 1))))))).
Proof.
  intros Hi Hc. assert (S < B) by nia.
  destruct (make_job_window primes B N S i HB HN Hsq Hi) as [Hstart Hvalues].
  assert (B * i + slice_values (make_job primes B N S i)
          = Z.min N (B * (i + 1))) as Hend by lia.
  rewrite <-Hend, <-Hstart.
  apply prime_slice_spec; rewrite ?Hstart, ?Hvalues;
    change (range (base_primes (make_job primes B N S i))) with B; try done.
  - nia.
  - by rewrite Z.odd_mul, multiple_of_16_even.
  - nia.
  - assert ((B * B - B * i) mod 16 = 0) as Hmod.
    { replace (B * B - B * i) with ((B - i) * (B / 16) * 16).
      - apply Z.mod_mul. lia.
      - pose proof (Z.div_mod B 16 ltac:(lia)). nia. }
    pose proof (round_up_16_le (Z.min N (B * (i + 1)) - B * i)
                  (B * B - B * i) ltac:(nia) ltac:(nia) Hmod). lia.
  - lia.
Qed.

Lemma run_slices_spec c0 :
  0 <= total_primes c0 <= 2 ^ 60 →
  run_slices fuel primes B N S c0 =
  Some (Counters
    (total_primes c0 + Z.of_nat (length (primes_in B N)))
    (default 0 (list.last (primes_in (B * S) N)))).
Proof.
  intros Hc0. assert (S < B) by nia. unfold run_slices, workersEnqueueJob.
  pose (Inv := λ st : Z * counters,
    1 <= st.1 <= S + 1 ∧
    total_primes st.2 =
      total_primes c0
        + Z.of_nat (length (primes_in B (Z.min N (B * st.1)))) ∧
    (1 < st.1 →
     last_prime st.2 =
       default 0 (list.last (primes_in (B * (st.1 - 1)) (Z.min N (B * st.1)))))).
  loop_rule Inv (λ st : Z * counters, S + 1 - st.1) Hloop.
  - intros [i c] (Hi & Htot & Hlast) Hcond. simpl in *.
    apply Z.leb_le in Hcond. split; [lia|].
    pose proof (primes_in_bounds B (Z.min N (B * i))).
    assert (B * B <= 2 ^ 28 * 2 ^ 28) by (apply Z.mul_le_mono_nonneg; lia).
    assert (B * 1 <= B * i <= B * S)
      by (split; apply Z.mul_le_mono_nonneg_l; lia).
    assert (B * (i + 1) = B * i + B) by lia.
    rewrite make_job_spec by lia. simpl. unwrap.
    eexists. split; [done|]. split; [|simpl; lia].
    unfold Inv. simpl. split; [lia|]. split.
    + rewrite Htot, (primes_in_split B (B * i) (Z.min N (B * (i + 1)))) by lia.
      rewrite length_app. replace (Z.min N (B * i)) with (B * i) by lia. lia.
    + intros _. by replace (i + 1 - 1) with i by lia.
  - unfold Inv. simpl. split; [lia|]. split; [|lia].
    rewrite primes_in_empty by lia. simpl. lia.
  - simpl. lia.
  - destruct Hloop as ([i c] & -> & (Hi & Htot & Hlast) & Hexit).
    simpl in *. apply Z.leb_gt in Hexit.
    assert (i = S + 1) as -> by lia.
    replace (Z.min N (B * (S + 1))) with N in * by nia.
    replace (S + 1 - 1) with S in Hlast by lia.
    destruct c as [tot lst]. simpl in *. by rewrite Htot, Hlast by lia.
Qed.
End Driver.

(** ** The whole computation (lines 108-196) *)

Lemma last_primes_from_3 m :
  4 <= m → ∃ v, list.last (primes_in 3 m) = Some v ∧
                list.last (primes_in 0 m) = Some v.
Proof.
  intros Hm.
  destruct (list.last (primes_in 3 m)) as [v|] eqn:E.
  - exists v. split; [done|].
    rewrite (primes_in_split 0 3 m), last_app, E by lia. done.
  - apply last_None in E.
    assert (3 ∈ primes_in 3 m) as Hin.
    { apply elem_of_primes_in. split; [apply Z.prime_3|lia]. }
    rewrite E in Hin. by apply not_elem_of_nil in Hin.
Qed.

Lemma count_primes_spec fuel N B S junk :
  valid_plan N B S → N <= 2 ^ 60 →
  B <= Z.of_nat fuel → S <= Z.of_nat fuel →
  ∃ base final,
    count_primes fuel N B S junk = Some (base, final) ∧
    total_primes base = pi (Z.min B N) ∧
    list.last (primes_in 0 (Z.min B N)) = Some (last_prime base) ∧
    total_primes final = pi N ∧
    last_prime final =
      if S =? 0 then last_prime base
      else default 0 (list.last (primes_in (B * S) N)).
Proof.
  intros (HB & HB16 & HN & Hplan) HN60 HfuelB HfuelS. unfold count_primes.
  destruct (build_base_spec fuel B) as (p & -> & Hrange & _ & Hbase);
    [lia|done|done|]. simpl.
  destruct (scan_base_spec fuel p B N junk) as (base & -> & Htot & Hlast);
    [lia|lia|unfold UINT64_MAX; lia|done|]. simpl.
  rewrite unmarked_odds_primes in Htot, Hlast
    by (intros w How Hw; apply Hbase; [done|lia]).
  destruct (last_primes_from_3 (Z.min B N)) as (v & Hv3 & Hv0); [lia|].
  rewrite Hv3 in Hlast. simpl in Hlast.
  rewrite <-pi_from_3 in Htot by lia.
  pose proof (primes_in_bounds 0 (Z.min B N)) as Hpi. fold (pi (Z.min B N)) in Hpi.
  destruct Hplan as [[-> HNB]|(HS & HNS & Hsq)].
  - (* no slices *)
    simpl. exists base, base. split; [done|].
    rewrite Htot, Hv0, Hlast. rewrite Z.min_r by lia. done.
  - (* slices *)
    destruct (Z.eqb_spec S 0) as [|_]; [lia|].
    subst B. rewrite run_slices_spec; try done; try lia.
    simpl. eexists _, _. split; [done|]. simpl.
    rewrite Htot, Hv0, Hlast. split; [done|]. split; [done|]. split; [|done].
    rewrite Z.min_l by nia. symmetry. apply pi_split. nia.
Qed.

(** ** The strategy (lines 76-96) *)

Lemma slice_plan_large N :
  1000000000000 < N <= 1000000000000000 →
  ∃ r B S, slice_plan N = Strategy B S ∧
    r = ceil_sqrt N ∧ 1000000 < r <= 31622777 ∧
    r <= B < r + 16 ∧ B mod 16 = 0 ∧
    1 <= S ∧ S * B < N <= (S + 1) * B ∧ N <= B * B.
Proof.
  intros HN. unfold slice_plan.
  rewrite (proj2 (Z.ltb_ge _ _)) by lia. rewrite (proj2 (Z.ltb_lt _ _)) by lia.
  destruct (ceil_sqrt_spec N ltac:(lia)) as (Hr0 & Hr1 & Hr2).
  pose proof (ceil_sqrt_le N 31622777 ltac:(lia) ltac:(lia) ltac:(lia)) as Hr3.
  set (r := ceil_sqrt N) in *.
  assert (1000000 < r) by nia.
  rewrite (to_int_id r) by (apply fits_int_bounds; lia).
  destruct (round_up_16_bounds r ltac:(lia)) as [HB HB16].
  set (B := round_up_16 r) in *.
  rewrite (to_u64_id B) by (apply fits_u64_bounds; lia).
  rewrite (to_u64_id (N - B)) by (apply fits_u64_bounds; lia).
  pose proof (ceil_div_spec (N - B) B ltac:(lia) ltac:(lia)) as HS.
  set (S := ceil_div (N - B) B) in *.
  assert (1 <= S <= 1000000000) by nia.
  rewrite (to_int_id S) by (apply fits_int_bounds; lia).
  exists r, B, S. split; [done|]. split; [done|].
  assert (r * r <= B * B) by (apply Z.mul_le_mono_nonneg; lia).
  repeat split; lia.
Qed.

Lemma slice_plan_medium N :
  1048576 < N <= 1000000000000 →
  ∃ S, slice_plan N = Strategy 1048576 S ∧
    1 <= S ∧ S * 1048576 < N <= (S + 1) * 1048576.
Proof.
  intros HN. unfold slice_plan.
  rewrite (proj2 (Z.ltb_ge _ _)) by lia. rewrite (proj2 (Z.ltb_ge _ _)) by lia.
  rewrite (proj2 (Z.ltb_lt _ _)) by lia.
  rewrite (to_u64_id 1048576) by (apply fits_u64_bounds; lia).
  rewrite (to_u64_id (N - 1048576)) by (apply fits_u64_bounds; lia).
  pose proof (ceil_div_spec (N - 1048576) 1048576 ltac:(lia) ltac:(lia)) as HS.
  set (S := ceil_div (N - 1048576) 1048576) in *.
  rewrite (to_int_id S) by (apply fits_int_bounds; lia).
  exists S. split; [done|]. lia.
Qed.

Lemma slice_plan_small N :
  10 <= N <= 1048576 →
  ∃ B, slice_plan N = Strategy B 0 ∧ N <= B < N + 16 ∧ B mod 16 = 0.
Proof.
  intros HN. unfold slice_plan.
  rewrite (proj2 (Z.ltb_ge _ _)) by lia. rewrite (proj2 (Z.ltb_ge _ _)) by lia.
  rewrite (proj2 (Z.ltb_ge _ _)) by lia. rewrite (proj2 (Z.leb_le _ _)) by lia.
  rewrite (to_int_id N) by (apply fits_int_bounds; lia).
  destruct (round_up_16_bounds N ltac:(lia)) as [HB HB16].
  eexists. split; [done|]. done.
Qed.

Lemma slice_plan_too_large N :
  1000000000000000 < N → slice_plan N = TooLarge.
Proof.
  intros HN. unfold slice_plan. by rewrite (proj2 (Z.ltb_lt _ _)) by lia.
Qed.

Lemma slice_plan_too_small N : N < 10 → slice_plan N = TooSmall.
Proof.
  intros HN. unfold slice_plan.
  rewrite (proj2 (Z.ltb_ge _ _)) by lia. rewrite (proj2 (Z.ltb_ge _ _)) by lia.
  rewrite (proj2 (Z.ltb_ge _ _)) by lia. by rewrite (proj2 (Z.leb_gt _ _)) by lia.
Qed.

Lemma slice_plan_valid N :
  10 <= N <= 1000000000000000 →
  ∃ B S, slice_plan N = Strategy B S ∧ valid_plan N B S ∧
         B <= N + 16 ∧ S <= N ∧ (S = 0 ↔ N <= 1048576).
Proof.
  intros HN. unfold valid_plan.
  destruct (decide (N <= 1048576)) as [Hs|Hs].
  - destruct (slice_plan_small N) as (B & -> & HB & HB16); [lia|].
    exists B, 0. split; [done|].
    assert (16 <= B).
    { pose proof (Z.div_mod B 16 ltac:(lia)). lia. }
    split; [|lia]. split; [lia|]. split; [done|]. split; [lia|]. left. lia.
  - destruct (decide (N <= 1000000000000)) as [Hm|Hm].
    + destruct (slice_plan_medium N) as (S & -> & HS & HNS); [lia|].
      exists 1048576, S. split; [done|]. split; [|lia].
      split; [lia|]. split; [done|]. split; [lia|]. right. lia.
    + destruct (slice_plan_large N)
        as (r & B & S & -> & _ & Hr & HB & HB16 & HS & HNS & Hsq); [lia|].
      exists B, S. split; [done|]. split; [|nia].
      split; [lia|]. split; [done|]. split; [lia|]. right. lia.
Qed.

(** ** The program (lines 56-200) *)

Lemma main_unfold fuel junk N rest B S :
  slice_plan N = Strategy B S → workers_ok rest →
  main fuel junk (N :: rest) =
  '(base, final) ← count_primes fuel N B S junk;
  if S =? 0
  then Some (Outcome 0
         [ThereAre (to_int (total_primes base)) (to_int N)
                   (to_int (last_prime base))])
  else Some (Outcome 0
         [BasePrimes (to_int (total_primes base)) B (to_int (last_prime base));
          Processing S (workers_of rest);
          ThereAre (total_primes final) N (last_prime final)]).
Proof.
  intros Hplan Hw. unfold workers_ok in Hw. unfold main. rewrite Hplan.
  rewrite (proj2 (Z.ltb_ge _ _)) by lia. rewrite (proj2 (Z.ltb_ge _ _)) by lia.
  done.
Qed.

Lemma pi_bounds n : 0 <= pi n <= Z.max 0 n.
Proof. pose proof (primes_in_bounds 0 n). unfold pi. lia. Qed.

(** Up to [2^20] the program sieves in one pass and prints the number of
    primes below [N] and the greatest of them. *)
Lemma main_unsliced fuel junk N rest :
  10 <= N <= 1048576 → workers_ok rest → N + 16 <= Z.of_nat fuel →
  ∃ p, main fuel junk (N :: rest) = Some (Outcome 0 [ThereAre (pi N) N p]) ∧
       greatest_prime_below N p.
Proof.
  intros HN Hw Hfuel.
  destruct (slice_plan_valid N) as (B & S & Hplan & Hvalid & HB & HS & HS0); [lia|].
  assert (S = 0) as -> by (apply HS0; lia).
  rewrite (main_unfold _ _ _ _ _ _ Hplan Hw).
  destruct (count_primes_spec fuel N B 0 junk Hvalid)
    as (base & final & -> & Htot & Hlast & _); [lia|lia|lia|].
  simpl. destruct Hvalid as (_ & _ & _ & [[_ HNB]|[? _]]); [|lia].
  rewrite Z.min_r in Htot, Hlast by done.
  apply last_primes_in in Hlast as Hgreat.
  pose proof (pi_bounds N). destruct Hgreat as (Hp & Hlt & Hmax).
  pose proof (Z.prime_ge_2 _ Hp).
  exists (last_prime base). split; [|done].
  rewrite Htot. by unwrap.
Qed.

(** Above [2^20] it prints the statistics of the base, then the number of
    primes below [N], and as the last prime the last prime of the last
    slice, or 0 when that slice has none. *)
Lemma main_sliced fuel junk N rest :
  1048576 < N <= 1000000000000000 → workers_ok rest → N + 16 <= Z.of_nat fuel →
  ∃ B S pB, slice_plan N = Strategy B S ∧ valid_plan N B S ∧ 1 <= S ∧
    greatest_prime_below B pB ∧
    main fuel junk (N :: rest) =
    Some (Outcome 0
      [BasePrimes (pi B) B pB;
       Processing S (workers_of rest);
       ThereAre (pi N) N (default 0 (list.last (primes_in (B * S) N)))]).
Proof.
  intros HN Hw Hfuel.
  destruct (slice_plan_valid N) as (B & S & Hplan & Hvalid & HB & HS & HS0); [lia|].
  rewrite (main_unfold _ _ _ _ _ _ Hplan Hw).
  destruct (count_primes_spec fuel N B S junk Hvalid)
    as (base & final & -> & Htot & Hlast & Htotf & Hlastf); [lia|lia|lia|].
  simpl. pose proof Hvalid as (HB28 & _ & _ & [[? _]|[HS1 [HSB _]]]); [lia|].
  destruct (Z.eqb_spec S 0) as [|_]; [lia|].
  rewrite Z.min_l in Htot, Hlast by nia.
  apply last_primes_in in Hlast as Hgreat.
  pose proof (pi_bounds B). pose proof Hgreat as (Hp & Hlt & Hmax).
  pose proof (Z.prime_ge_2 _ Hp).
  exists B, S, (last_prime base). do 4 (split; [done|]).
  rewrite Htot, Htotf, Hlastf. by unwrap.
Qed.

(** * The properties of the specification *)

(** ** Marking is local *)

Lemma is_prime_slice_out_of_range p v :
  ¬ (0 <= v < range p) → is_prime_slice p v = None.
Proof.
  intros Hv. unfold is_prime_slice, load, range in *.
  destruct (decide (0 <= v ≫ 4)) as [Hi|Hi]; [|done].
  rewrite shiftr_4 in *.
  assert (0 <= v) by (destruct (decide (0 <= v)); [done|];
    pose proof (Z.div_lt_upper_bound v 16 0 ltac:(lia) ltac:(lia)); lia).
  rewrite lookup_ge_None_2; [done|].
  pose proof (Z.div_le_lower_bound v 16 (Z.of_nat (length p)) ltac:(lia) ltac:(lia)).
  lia.
Qed.

Lemma is_prime_main_odd p v :
  Z.odd v = true → is_prime_main p v = is_prime_slice p v.
Proof.
  intros Hodd. unfold is_prime_main, is_prime_slice, bit_mask.
  by rewrite land_1, Zmod_odd, Hodd.
Qed.

(** C9: marking an odd value [v] of the buffer sets bit [(v >> 1) & 7]
    of byte [v >> 4] and makes both forms of the primality test of [v]
    false; it leaves the result of both tests as it was for every other
    odd value [w], which stands at another (byte, bit) position; in
    particular for [v - 2] and [v + 2]. *)
Theorem mark_composite_frame (p : list Z) (v : Z) :
  Z.odd v = true → 0 <= v < range p →
  ∃ p', mark_composite p v = Some p' ∧ range p' = range p ∧
    marked p' v = true ∧
    is_prime_main p' v = Some false ∧ is_prime_slice p' v = Some false ∧
    (∀ w, Z.odd w = true → w ≠ v →
       (w ≫ 4, Z.land (w ≫ 1) 7) ≠ (v ≫ 4, Z.land (v ≫ 1) 7) ∧
       is_prime_main p' w = is_prime_main p w ∧
       is_prime_slice p' w = is_prime_slice p w) ∧
    is_prime_main p' (v - 2) = is_prime_main p (v - 2) ∧
    is_prime_slice p' (v - 2) = is_prime_slice p (v - 2) ∧
    is_prime_main p' (v + 2) = is_prime_main p (v + 2) ∧
    is_prime_slice p' (v + 2) = is_prime_slice p (v + 2).
Proof.
  intros Hodd Hv.
  destruct (mark_composite_spec p v Hv) as (p' & Hmark & Hlen & Hbits).
  assert (range p' = range p) as Hrange by (unfold range; congruence).
  exists p'. split; [done|]. split; [done|].
  assert (marked p' v = true) as Hset.
  { by rewrite Hbits, Z.eqb_refl, orb_true_r by lia. }
  split; [done|].
  assert (is_prime_slice p' v = Some false) as Hself.
  { by rewrite is_prime_slice_marked, Hset by lia. }
  assert (∀ w, Z.odd w = true → w ≠ v →
    (w ≫ 4, Z.land (w ≫ 1) 7) ≠ (v ≫ 4, Z.land (v ≫ 1) 7) ∧
    is_prime_main p' w = is_prime_main p w ∧
    is_prime_slice p' w = is_prime_slice p w) as Hframe.
  { intros w How Hne.
    assert ((w ≫ 1 =? v ≫ 1) = false) as Hhalf.
    { apply Z.eqb_neq. intros Heq. by apply Hne, odd_same_half. }
    split.
    { intros [= H4 H1]. rewrite same_bit_iff, H4, H1, !Z.eqb_refl in Hhalf. done. }
    rewrite !is_prime_main_odd by done.
    assert (is_prime_slice p' w = is_prime_slice p w) as Hsame; [|done].
    destruct (decide (0 <= w < range p)) as [Hw|Hw].
    - rewrite !is_prime_slice_marked by lia.
      by rewrite Hbits, Hhalf, orb_false_r by lia.
    - rewrite !is_prime_slice_out_of_range by lia. done. }
  split; [by rewrite is_prime_main_odd|]. split; [done|]. split; [done|].
  assert (Z.odd (v - 2) = true) as Hm by by rewrite Z.odd_sub, Hodd.
  assert (Z.odd (v + 2) = true) as Hp by by rewrite Z.odd_add, Hodd.
  destruct (Hframe (v - 2) Hm ltac:(lia)) as (_ & ? & ?).
  destruct (Hframe (v + 2) Hp ltac:(lia)) as (_ & ? & ?).
  done.
Qed.

Lemma mark_composite_frame_witness :
  ∃ p', mark_composite [0; 130] 21 = Some p' ∧ range p' = range [0; 130] ∧
    marked p' 21 = true ∧
    is_prime_main p' 21 = Some false ∧ is_prime_slice p' 21 = Some false ∧
    (∀ w, Z.odd w = true → w ≠ 21 →
       (w ≫ 4, Z.land (w ≫ 1) 7) ≠ (21 ≫ 4, Z.land (21 ≫ 1) 7) ∧
       is_prime_main p' w = is_prime_main [0; 130] w ∧
       is_prime_slice p' w = is_prime_slice [0; 130] w) ∧
    is_prime_main p' (21 - 2) = is_prime_main [0; 130] (21 - 2) ∧
    is_prime_slice p' (21 - 2) = is_prime_slice [0; 130] (21 - 2) ∧
    is_prime_main p' (21 + 2) = is_prime_main [0; 130] (21 + 2) ∧
    is_prime_slice p' (21 + 2) = is_prime_slice [0; 130] (21 + 2).
Proof.
  apply (mark_composite_frame [0; 130] 21); [reflexivity|].
  unfold range. simpl. lia.
Defined.

(** ** The bands of the strategy *)

(** C3: the strategy follows the bands of the specification: above
    [10^15] the value is refused; above [10^12] the base bound is the
    ceiling of the square root rounded up to a multiple of 16; above
    [2^20] it is [2^20]; in both bands the number of slices is the ceiling
    of [(N - B) / B]; from 10 to [2^20] the base bound is [N] rounded up
    to a multiple of 16 and there is no slice; below 10 the value is
    refused. *)
Theorem slice_plan_bands (N : Z) :
  (1000000000000000 < N → slice_plan N = TooLarge) ∧
  (1000000000000 < N <= 1000000000000000 →
     ∃ r B S, slice_plan N = Strategy B S ∧
       is_ceil_sqrt N r ∧ is_round_up_16 r B ∧ is_ceil_quotient (N - B) B S) ∧
  (2 ^ 20 < N <= 1000000000000 →
     ∃ S, slice_plan N = Strategy (2 ^ 20) S ∧
       is_ceil_quotient (N - 2 ^ 20) (2 ^ 20) S) ∧
  (10 <= N <= 2 ^ 20 →
     ∃ B, slice_plan N = Strategy B 0 ∧ is_round_up_16 N B) ∧
  (N < 10 → slice_plan N = TooSmall).
Proof.
  unfold is_ceil_sqrt, is_round_up_16, is_ceil_quotient.
  change (2 ^ 20) with 1048576.
  split; [|split; [|split; [|split]]].
  - apply slice_plan_too_large.
  - intros HN.
    destruct (slice_plan_large N HN)
      as (r & B & S & -> & -> & Hr & HB & HB16 & HS & HNS & Hsq).
    destruct (ceil_sqrt_spec N ltac:(lia)) as (Hr0 & Hr1 & Hr2).
    exists (ceil_sqrt N), B, S. split; [done|].
    split; [lia|]. split; [done|]. lia.
  - intros HN. destruct (slice_plan_medium N HN) as (S & -> & HS & HNS).
    exists S. split; [done|]. lia.
  - intros HN. destruct (slice_plan_small N HN) as (B & -> & HB & HB16).
    exists B. done.
  - apply slice_plan_too_small.
Qed.

(** ** The base sieve and its scan *)

(** C4: the base sieve built over [0, B) marks 1 and leaves unmarked,
    among the odd values of [3, B), exactly the primes; the seeding scan
    then sets the count to 1 plus the number of unmarked odd values of
    [3, min (B, N)) and the last prime to the greatest of them. *)
Theorem base_sieve_correct (fuel : nat) (B N junk : Z) :
  16 <= B <= 2 ^ 30 → B mod 16 = 0 → 4 <= N <= UINT64_MAX →
  B <= Z.of_nat fuel →
  ∃ primes c,
    build_base fuel B = Some primes ∧ range primes = B ∧
    marked primes 1 = true ∧
    (∀ w, Z.odd w = true → 3 <= w < B → marked primes w = false ↔ Z.prime w) ∧
    scan_base fuel primes B N junk = Some c ∧
    total_primes c = 1 + Z.of_nat (length (unmarked_odds primes 3 (Z.min B N))) ∧
    last_prime c ∈ unmarked_odds primes 3 (Z.min B N) ∧
    (∀ v, v ∈ unmarked_odds primes 3 (Z.min B N) → v <= last_prime c).
Proof.
  intros HB HB16 HN Hfuel.
  destruct (build_base_spec fuel B HB HB16 Hfuel) as (p & Hp & Hrange & H1 & Hbase).
  destruct (scan_base_spec fuel p B N junk) as (c & Hc & Htot & Hlast);
    [lia|lia|lia|done|].
  exists p, c. do 6 (split; [done|]).
  assert (3 ∈ unmarked_odds p 3 (Z.min B N)) as H3.
  { apply list_elem_of_filter. split; [|apply elem_of_seqZ; lia].
    assert (marked p 3 = false) as -> by (apply Hbase; [done|lia|apply Z.prime_3]).
    done. }
  destruct (list.last (unmarked_odds p 3 (Z.min B N))) as [v|] eqn:E.
  - simpl in Hlast. subst v. by apply last_filter_seqZ in E.
  - apply last_None in E. rewrite E in H3. by apply not_elem_of_nil in H3.
Qed.

Lemma base_sieve_correct_witness :
  ∃ primes c,
    build_base 16 16 = Some primes ∧ range primes = 16 ∧
    marked primes 1 = true ∧
    (∀ w, Z.odd w = true → 3 <= w < 16 → marked primes w = false ↔ Z.prime w) ∧
    scan_base 16 primes 16 10 0 = Some c ∧
    total_primes c = 1 + Z.of_nat (length (unmarked_odds primes 3 (Z.min 16 10))) ∧
    last_prime c ∈ unmarked_odds primes 3 (Z.min 16 10) ∧
    (∀ v, v ∈ unmarked_odds primes 3 (Z.min 16 10) → v <= last_prime c).
Proof.
  apply (base_sieve_correct 16 16 10 0);
    [lia | reflexivity | unfold UINT64_MAX; lia | lia].
Defined.

(** ** The multiples marked in a slice *)

(** C5: for a window that starts at a multiple of 16 and an odd [t] from
    3 below the factor limit, no subexpression of the initialiser of line
    223 leaves its type; its value is the offset, in [0, 2 t), of the
    least odd multiple of [t] from [start] on; the increments of the
    marking loop stay in [int]; and the loop marks, among the odd offsets,
    exactly those of the multiples of [t] inside the aligned window. *)
Theorem slice_marks_odd_multiples (fuel : nat) (start len t : Z) (s : list Z) :
  let aligned := round_up_16 len in
  let off := first_offset start t in
  0 <= start → start mod 16 = 0 → 0 < len <= 2 ^ 30 →
  start + len <= 1000000000000000 →
  Z.odd t = true → 3 <= t < ceil_sqrt (start + aligned) →
  aligned <= range s → aligned <= Z.of_nat fuel →
  Forall (λ '(ty, z), fits ty z) (first_offset_steps start t) ∧
  off = ((start + t - 1) / (t * 2) * 2 + 1) * t - start ∧
  0 <= off < 2 * t ∧
  (t | start + off) ∧ Z.odd (start + off) = true ∧
  (∀ x, Z.odd x = true → (t | x) → start <= x → start + off <= x) ∧
  (∀ c, off <= c < aligned → fits_int (c + t * 2)) ∧
  ∃ s', mark_multiples fuel t aligned off s = Some s' ∧ length s' = length s ∧
        ∀ c, 0 <= c → Z.odd c = true →
             marked s' c = true ↔
             marked s c = true ∨ (c < aligned ∧ (t | start + c)).
Proof.
  intros aligned off Hstart H16 Hlen HN Hodd Ht Hrange Hfuel.
  destruct (round_up_16_bounds len ltac:(lia)) as [Hal _]. fold aligned in Hal.
  assert (t < 31622778) as Ht'.
  { pose proof (ceil_sqrt_le (start + aligned) 31622778
                  ltac:(lia) ltac:(lia) ltac:(lia)). lia. }
  assert (0 <= start <= 2 ^ 62) as Hs by lia.
  assert (3 <= t <= 2 ^ 30 - 1) as Ht30 by lia.
  pose proof (first_offset_exact start t Hs Ht30) as Hoff. fold off in Hoff.
  pose proof (first_offset_range start t Hs Ht30) as Hr. rewrite <-Hoff in Hr.
  destruct (first_offset_multiple start t Hodd) as [Hdiv Hom].
  rewrite <-Hoff in Hdiv, Hom.
  split; [by apply first_offset_fits|]. split; [done|]. split; [done|].
  split; [done|]. split; [done|]. split.
  { intros x Hx Hdx Hge. rewrite Hoff. by apply first_offset_least. }
  split.
  { intros c Hc. apply fits_int_bounds. lia. }
  destruct (mark_multiples_spec fuel t aligned off s)
    as (s' & Hs' & Hlen' & Hbits); try lia.
  { rewrite Z.odd_add, (multiple_of_16_even start H16) in Hom.
    by destruct (Z.odd off). }
  { unfold INT_MAX. lia. }
  exists s'. split; [done|]. split; [done|].
  intros c Hc Hoc. rewrite Hbits, orb_true_iff by done.
  unfold off. rewrite stride_hit_first_offset; try done.
  by apply multiple_of_16_even.
Qed.

Lemma slice_marks_odd_multiples_witness :
  Forall (λ '(ty, z), fits ty z) (first_offset_steps 1024 5) ∧
  first_offset 1024 5 = ((1024 + 5 - 1) / (5 * 2) * 2 + 1) * 5 - 1024 ∧
  0 <= first_offset 1024 5 < 2 * 5 ∧
  (5 | 1024 + first_offset 1024 5) ∧ Z.odd (1024 + first_offset 1024 5) = true ∧
  (∀ x, Z.odd x = true → (5 | x) → 1024 <= x →
        1024 + first_offset 1024 5 <= x) ∧
  (∀ c, first_offset 1024 5 <= c < round_up_16 20 → fits_int (c + 5 * 2)) ∧
  ∃ s', mark_multiples 32 5 (round_up_16 20) (first_offset 1024 5) [0; 0]
          = Some s' ∧ length s' = length [0; 0] ∧
        ∀ c, 0 <= c → Z.odd c = true →
             marked s' c = true ↔
             marked [0; 0] c = true ∨ (c < round_up_16 20 ∧ (5 | 1024 + c)).
Proof.
  apply (slice_marks_odd_multiples 32 1024 20 5 [0; 0]);
    try reflexivity; try (vm_compute; lia); try lia.
  split; [lia | reflexivity].
Defined.

(** ** The scan of a slice *)




(** ** The values that the scans read *)

Lemma odds_unmarked lo hi : odds lo hi = unmarked_odds [] lo hi.
Proof.
  apply filter_ext_elem. intros v _.
  assert (marked [] v = false) as ->; [|by rewrite andb_true_r].
  unfold marked. rewrite lookup_nil. apply Z.bits_0.
Qed.

Lemma odds_snoc lo t :
  lo <= t → Z.odd t = true → odds lo (t + 2) = odds lo t ++ [t].
Proof.
  intros Hlo Hodd. rewrite !odds_unmarked, unmarked_odds_snoc by done.
  assert (marked [] t = false) as ->; [|done].
  unfold marked. rewrite lookup_nil. apply Z.bits_0.
Qed.








(** ** The windows tile the range *)




(** ** Accepted and refused arguments *)

(** C8: without arguments the program prints its usage and exits with 0;
    a value below 10 or above [10^15], or a worker count outside
    [0, 100], is refused with exit code 1 before any loop runs (with no
    fuel at all); a value from 10 to [10^15] with a worker count from 0
    to 100 is accepted: the program needs iterations, and with enough of
    them exits with 0 after reporting the count for [N]. *)
Theorem main_accepts_exactly (fuel : nat) (junk N : Z) (rest : list Z) :
  N + 16 <= Z.of_nat fuel →
  (∀ f, main f junk [] = Some (Outcome 0 [Usage])) ∧
  (N < 10 → ∀ f, main f junk (N :: rest) = Some (Outcome 1 [SorryAtLeast10])) ∧
  (1000000000000000 < N →
     ∀ f, main f junk (N :: rest) = Some (Outcome 1 [SorryQuadrillion])) ∧
  (10 <= N <= 1000000000000000 → ¬ workers_ok rest →
     ∀ f, main f junk (N :: rest) = Some (Outcome 1 [SorryWorkers])) ∧
  (10 <= N <= 1000000000000000 → workers_ok rest →
     main 0 junk (N :: rest) = None ∧
     ∃ out last, main fuel junk (N :: rest) = Some (Outcome 0 out) ∧
                 list.last out = Some (ThereAre (pi N) N last)).
Proof.
  intros Hfuel. split; [done|]. split; [|split; [|split]].
  - intros HN f. unfold main. by rewrite slice_plan_too_small.
  - intros HN f. unfold main. by rewrite slice_plan_too_large.
  - intros HN Hw f.
    destruct (slice_plan_valid N HN) as (B & S & Hplan & _).
    unfold main, workers_ok in *. rewrite Hplan.
    destruct (Z.ltb_spec (workers_of rest) 0); [done|].
    destruct (Z.ltb_spec 100 (workers_of rest)); [done|lia].
  - intros HN Hw.
    destruct (slice_plan_valid N HN) as (B & S & Hplan & Hvalid & _).
    split.
    + rewrite (main_unfold _ _ _ _ _ _ Hplan Hw).
      destruct Hvalid as (HB & HB16 & _).
      unfold count_primes, build_base.
      rewrite Z.quot_div_nonneg by lia.
      change (or_store ?p 0 1) with (mark_composite p 1).
      destruct (mark_composite_spec (calloc (B / 16)) 1) as (p1 & -> & _).
      { unfold range. rewrite length_calloc.
        pose proof (Z.div_mod B 16 ltac:(lia)). lia. }
      simpl. change (3 *ᵢ 3) with 9.
      by rewrite (proj2 (Z.ltb_lt 9 B)) by lia.
    + destruct (decide (N <= 1048576)) as [Hs|Hs].
      * destruct (main_unsliced fuel junk N rest) as (p & -> & _); [lia|done|done|].
        by eexists _, _.
      * destruct (main_sliced fuel junk N rest)
          as (B' & S' & pB & _ & _ & _ & _ & ->); [lia|done|done|].
        by eexists _, _.
Qed.

Lemma main_accepts_exactly_witness :
  (∀ f, main f 0 [] = Some (Outcome 0 [Usage])) ∧
  (10 < 10 → ∀ f, main f 0 [10] = Some (Outcome 1 [SorryAtLeast10])) ∧
  (1000000000000000 < 10 →
     ∀ f, main f 0 [10] = Some (Outcome 1 [SorryQuadrillion])) ∧
  (10 <= 10 <= 1000000000000000 → ¬ workers_ok [] →
     ∀ f, main f 0 [10] = Some (Outcome 1 [SorryWorkers])) ∧
  (10 <= 10 <= 1000000000000000 → workers_ok [] →
     main 0 0 [10] = None ∧
     ∃ out last, main 26 0 [10] = Some (Outcome 0 out) ∧
                 list.last out = Some (ThereAre (pi 10) 10 last)).
Proof.
  apply (main_accepts_exactly 26 0 10 []). simpl. lia.
Defined.

(** ** Sliced against unsliced *)

Lemma valid_plan_sliced_bounds N B S :
  valid_plan N B S → 1 <= S → 16 <= B < N ∧ S < N.
Proof.
  intros (HB & _ & _ & [[? _]|(HS & HNS & _)]) HS1; [lia|]. nia.
Qed.

(** The marks of the unsliced pass of the specification after the
    candidates below [3 + 2 n]. *)
Lemma unsliced_marks_steps B n :
  let k := 3 + 2 * Z.of_nat n in
  ∀ w, Z.odd w = true → 0 <= w < B →
    foldl (λ (marks : Z → bool) t,
             if marks t then marks
             else λ w, marks w || stride_hit (t * t) t B w)
          (λ w, w =? 1)
          (filter (λ t, t * t <? B) (odds 3 k)) w = true ↔
    w = 1 ∨ sieved_by k w.
Proof.
  induction n as [|n IH]; intros k.
  - intros w How Hw. unfold k, odds. simpl. rewrite Z.eqb_eq.
    split; [by left|]. intros [->|(q & _ & ? & _)]; [done|lia].
  - assert (k = 3 + 2 * Z.of_nat n + 2) as -> by lia.
    set (t := 3 + 2 * Z.of_nat n) in *. simpl in IH.
    assert (Z.odd t = true) as Hot.
    { unfold t. by rewrite Z.odd_add_mul_2. }
    rewrite odds_snoc, list.filter_app, filter_cons, filter_nil by (done || lia).
    set (m := foldl _ _ (filter _ (odds 3 t))) in *.
    destruct (Z.ltb_spec (t * t) B) as [Hsq|Hsq].
    + rewrite decide_True by done. rewrite foldl_snoc. fold m.
      assert (t * 1 <= t * t) by (apply Z.mul_le_mono_nonneg_l; lia).
      destruct (m t) eqn:Hmt.
      * (* [t] is marked: it is composite *)
        assert (¬ Z.prime t) as Hnp.
        { apply IH in Hmt as [Ht1|Hs]; [lia| |done|lia].
          by apply sieved_by_not_prime in Hs. }
        intros w How Hw.
        by rewrite IH, sieved_by_step_composite by done.
      * (* [t] is unmarked: it is prime, and its multiples get marked *)
        assert (Z.prime t) as Hp.
        { apply not_sieved_prime; [done|lia|]. intros Hs.
          assert (m t = true) as Hm by (apply IH; [done|lia|by right]).
          congruence. }
        intros w How Hw.
        rewrite orb_true_iff, IH by done.
        rewrite stride_hit_square by (done || lia).
        rewrite sieved_by_step_prime by (done || lia). tauto.
    + rewrite decide_False by (by intros []). rewrite app_nil_r. fold m.
      intros w How Hw. rewrite IH by done.
      split; (intros [?|(q & Hq & Hqt & Hqsq & Hdiv)]; [by left|right]).
      * exists q. split; [done|]. split; [lia|done].
      * exists q. split; [done|]. split; [|done].
        destruct (decide (q < t)) as [|Hge]; [lia|exfalso].
        assert (t * t <= q * q) by (apply Z.mul_le_mono_nonneg; lia). lia.
Qed.

(** The unsliced pass leaves unmarked exactly the odd primes below its
    bound. *)
Lemma unsliced_marks_spec B w :
  16 <= B → B mod 16 = 0 → Z.odd w = true → 3 <= w < B →
  unsliced_marks B w = false ↔ Z.prime w.
Proof.
  intros HB HB16 How Hw. unfold unsliced_marks.
  pose proof (multiple_of_16_even B HB16) as Heven.
  pose proof (Z.div_mod B 16 ltac:(lia)) as E. rewrite HB16 in E.
  pose proof (unsliced_marks_steps B (Z.to_nat (8 * (B / 16) - 1)) w How
                ltac:(lia)) as Hsteps.
  simpl in Hsteps. rewrite Z2Nat.id in Hsteps by lia.
  replace (3 + 2 * (8 * (B / 16) - 1)) with (B + 1) in Hsteps by lia.
  rewrite !odds_unmarked, unmarked_odds_even_end, <-!odds_unmarked in Hsteps
    by done.
  rewrite <-not_true_iff_false, Hsteps.
  assert (B * 1 <= B * B) by (apply Z.mul_le_mono_nonneg_l; lia).
  rewrite (sieved_by_complete (B + 1) w B) by (done || lia).
  split.
  - intros Hn. destruct (prime_dec w) as [|Hnp]; [done|].
    destruct Hn. by right.
  - intros Hp [->|Hnp]; [lia|done].
Qed.

(** The count of the unsliced pass is the number of primes below [N]. *)
Lemma unsliced_count_spec N : 3 <= N → unsliced_count N = pi N.
Proof.
  intros HN. unfold unsliced_count. simpl.
  pose proof (Z.div_mod (N + 15) 16 ltac:(lia)).
  pose proof (Z.mod_pos_bound (N + 15) 16 ltac:(lia)).
  set (B := 16 * ((N + 15) / 16)) in *.
  assert (B mod 16 = 0) as HB16.
  { unfold B. rewrite Z.mul_comm. apply Z.mod_mul. lia. }
  assert (16 <= B).
  { pose proof (Z.div_mod B 16 ltac:(lia)). lia. }
  rewrite Z.min_r, pi_from_3 by lia. do 3 f_equal.
  unfold odds, primes_in. rewrite list_filter_filter.
  apply filter_ext_elem. intros v Hv%elem_of_seqZ.
  rewrite Is_true_is_prime. destruct (Z.odd v) eqn:Hodd.
  - rewrite <-(unsliced_marks_spec B v) by (done || lia).
    destruct (unsliced_marks B v); simpl; intuition done.
  - split; [by intros [_ []]|]. intros Hp.
    by destruct (even_not_prime v Hodd ltac:(lia)).
Qed.

(** The one-pass computation of the program, as far as its [int]
    arithmetic reaches. *)
Lemma count_primes_one_pass fuel N junk :
  10 <= N <= 2147302912 → N + 16 <= Z.of_nat fuel →
  ∃ base, count_primes fuel N (round_up_16 N) 0 junk = Some (base, base) ∧
          total_primes base = pi N.
Proof.
  intros HN Hfuel. unfold count_primes.
  destruct (round_up_16_bounds N ltac:(lia)) as [HB HB16].
  pose proof (round_up_16_le N 2147302912 ltac:(lia) ltac:(lia) ltac:(done)).
  set (B := round_up_16 N) in *.
  assert (16 <= B).
  { pose proof (Z.div_mod B 16 ltac:(lia)). lia. }
  destruct (build_base_spec_int fuel B) as (p & -> & Hrange & _ & Hbase);
    [lia|done|lia|]. simpl.
  destruct (scan_base_spec_int fuel p B N junk) as (base & -> & Htot & _);
    [lia|lia|unfold UINT64_MAX; lia|lia|]. simpl.
  exists base. split; [done|].
  rewrite Z.min_r in Htot by lia.
  rewrite unmarked_odds_primes in Htot
    by (intros w How Hw; apply Hbase; [done|lia]).
  by rewrite pi_from_3 by lia.
Qed.

(** C7: for every [N] and every base bound [B] and number [S >= 1] of
    slices that make a valid plan for [N] (for every [N] above [2^20] the
    program's own is one), the count of the sliced computation is the
    count of the unsliced pass of the specification over the whole range,
    both being the number of primes below [N]; and up to [2147302912],
    as far as the [int] arithmetic of lines 108-123 reaches, it is the
    count of the program's own one-pass computation (a base of [N]
    rounded up to a multiple of 16 and no slice). *)
Theorem sliced_equals_unsliced (fuel : nat) (N B S junk junk' : Z) :
  valid_plan N B S → 1 <= S → N + 16 <= Z.of_nat fuel →
  ∃ base final,
    count_primes fuel N B S junk = Some (base, final) ∧
    total_primes final = unsliced_count N ∧
    total_primes final = pi N ∧
    (N <= 2147302912 →
     ∃ base' final',
       count_primes fuel N (round_up_16 N) 0 junk' = Some (base', final') ∧
       total_primes final' = total_primes final).
Proof.
  intros Hvalid HS Hfuel.
  destruct (valid_plan_sliced_bounds N B S Hvalid HS) as [HB HSN].
  pose proof Hvalid as (_ & _ & HN & _).
  destruct (count_primes_spec fuel N B S junk Hvalid)
    as (base & final & Hc & _ & _ & Htot & _); [lia..|].
  exists base, final. split; [done|].
  split; [by rewrite unsliced_count_spec by lia|]. split; [done|].
  intros HN31.
  destruct (count_primes_one_pass fuel N junk') as (base' & Hc' & Htot');
    [lia|done|].
  exists base', base'. split; [done|]. congruence.
Qed.

Lemma sliced_equals_unsliced_witness :
  ∃ base final,
    count_primes (Z.to_nat 1048593) 1048577 1048576 1 0 = Some (base, final) ∧
    total_primes final = unsliced_count 1048577 ∧
    total_primes final = pi 1048577 ∧
    (1048577 <= 2147302912 →
     ∃ base' final',
       count_primes (Z.to_nat 1048593) 1048577 (round_up_16 1048577) 0 0
         = Some (base', final') ∧
       total_primes final' = total_primes final).
Proof.
  apply (sliced_equals_unsliced (Z.to_nat 1048593) 1048577 1048576 1 0 0);
    [|lia..].
  split; [lia|]. split; [reflexivity|]. split; [lia|]. right. lia.
Defined.

(** ** The last prime *)

Lemma primes_in_even_singleton start :
  Z.odd start = false → 2 < start → primes_in start (start + 1) = [].
Proof.
  intros Heven Hstart. unfold primes_in.
  replace (start + 1 - start) with 1 by lia.
  rewrite seqZ_one, filter_cons, filter_nil, decide_False; [done|].
  rewrite Is_true_is_prime. by apply even_not_prime.
Qed.

Lemma no_divisor_to_sqrt_prime n : no_divisor_to_sqrt n = true → Z.prime n.
Proof.
  unfold no_divisor_to_sqrt.
  rewrite andb_true_iff, Z.ltb_lt, forallb_forall. intros [Hn Hall].
  destruct (prime_dec n) as [|Hnp]; [done|exfalso].
  destruct (small_prime_factor n Hn Hnp) as (q & Hq & Hdiv & Hsq).
  pose proof (Z.prime_ge_2 q Hq).
  assert (q <= Z.sqrt n) by (apply Z.sqrt_le_square; lia).
  assert (In q (seqZ 2 (Z.sqrt n - 1))) as Hin.
  { apply list_elem_of_In, elem_of_seqZ. lia. }
  apply Hall, negb_true_iff, Z.eqb_neq in Hin.
  apply Hin, Z.mod_divide; [lia|done].
Qed.

Lemma divisor_not_prime n d : 1 < d < n → n mod d = 0 → ¬ Z.prime n.
Proof.
  intros Hd Hmod. apply (proper_divisor_not_prime n d Hd).
  apply Z.mod_divide; [lia|done].
Qed.

Lemma greatest_prime_below_unique n p q :
  greatest_prime_below n p → greatest_prime_below n q → p = q.
Proof.
  intros (Hp & Hpn & Hpmax) (Hq & Hqn & Hqmax).
  pose proof (Hpmax q Hq Hqn). pose proof (Hqmax p Hp Hpn). lia.
Qed.

(** The greatest primes below [2^20] and below [2^21 + 1]. *)
Lemma greatest_prime_below_1048576 : greatest_prime_below 1048576 1048573.
Proof.
  split; [by apply no_divisor_to_sqrt_prime; vm_compute|]. split; [lia|].
  intros q Hq Hlt. destruct (decide (q <= 1048573)) as [|Hgt]; [done|exfalso].
  assert (q = 1048574 ∨ q = 1048575) as [-> | ->] by lia.
  - by apply (divisor_not_prime 1048574 2) in Hq.
  - by apply (divisor_not_prime 1048575 3) in Hq.
Qed.

Lemma greatest_prime_below_2097153 : greatest_prime_below 2097153 2097143.
Proof.
  split; [by apply no_divisor_to_sqrt_prime; vm_compute|]. split; [lia|].
  intros q Hq Hlt. destruct (decide (q <= 2097143)) as [|Hgt]; [done|exfalso].
  assert (q = 2097144 ∨ q = 2097145 ∨ q = 2097146 ∨ q = 2097147 ∨
          q = 2097148 ∨ q = 2097149 ∨ q = 2097150 ∨ q = 2097151 ∨
          q = 2097152) as Hcases by lia.
  destruct Hcases as [-> | [-> | [-> | [-> | [-> | [-> | [-> | [-> | ->]]]]]]]].
  - by apply (divisor_not_prime 2097144 2) in Hq.
  - by apply (divisor_not_prime 2097145 5) in Hq.
  - by apply (divisor_not_prime 2097146 2) in Hq.
  - by apply (divisor_not_prime 2097147 3) in Hq.
  - by apply (divisor_not_prime 2097148 2) in Hq.
  - by apply (divisor_not_prime 2097149 773) in Hq.
  - by apply (divisor_not_prime 2097150 2) in Hq.
  - by apply (divisor_not_prime 2097151 7) in Hq.
  - by apply (divisor_not_prime 2097152 2) in Hq.
Qed.

(** C1: at [N = 2097153] the program counts the primes below [N], but the
    last slice, which holds the single value 2097152, has no prime and its
    merge stores 0 as the last prime: the program reports 0, where the
    greatest prime below [N] is 2097143. *)
Theorem last_prime_lost (fuel : nat) (junk : Z) (rest : list Z) :
  workers_ok rest → 2097153 + 16 <= Z.of_nat fuel →
  main fuel junk (2097153 :: rest) =
  Some (Outcome 0
    [BasePrimes (pi 1048576) 1048576 1048573;
     Processing 2 (workers_of rest);
     ThereAre (pi 2097153) 2097153 0]) ∧
  greatest_prime_below 2097153 2097143.
Proof.
  intros Hw Hfuel. split; [|apply greatest_prime_below_2097153].
  destruct (main_sliced fuel junk 2097153 rest)
    as (B & S & pB & Hplan & _ & _ & HpB & ->); [lia|done|done|].
  assert (slice_plan 2097153 = Strategy 1048576 2) as Hplan' by by vm_compute.
  rewrite Hplan' in Hplan. injection Hplan as <- <-.
  rewrite (greatest_prime_below_unique _ _ _ HpB greatest_prime_below_1048576).
  change (1048576 * 2) with 2097152. change 2097153 with (2097152 + 1) at 5.
  by rewrite primes_in_even_singleton.
Qed.

Lemma last_prime_lost_witness :
  main (Z.to_nat 2097169) 0 [2097153] =
  Some (Outcome 0
    [BasePrimes (pi 1048576) 1048576 1048573;
     Processing 2 (workers_of []);
     ThereAre (pi 2097153) 2097153 0]) ∧
  greatest_prime_below 2097153 2097143.
Proof.
  apply (last_prime_lost (Z.to_nat 2097169) 0 []); [|lia].
  unfold workers_ok. simpl. lia.
Defined.

(** C2: the merge adds the count of the slice, but it stores the last
    prime of the slice over the shared one instead of keeping the greater:
    the last job of [N = 2097153], whose window has no prime, leaves the
    count as it was and sets the shared last prime to 0, whatever it
    held. *)
Theorem merge_overwrites_last_prime (fuel : nat) (shared : counters) :
  0 <= total_primes shared <= 2 ^ 62 → 1048576 <= Z.of_nat fuel →
  ∃ primes,
    build_base fuel 1048576 = Some primes ∧
    prime_slice fuel (make_job primes 1048576 2097153 2 2) shared =
    Some (Counters (total_primes shared) 0).
Proof.
  intros Hshared Hfuel.
  destruct (build_base_spec fuel 1048576) as (p & Hp & Hrange & _ & Hbase);
    [lia|done|done|].
  exists p. split; [done|].
  rewrite <-Hrange.
  rewrite make_job_spec; rewrite ?Hrange; try done; try lia.
  change (Z.min 2097153 (1048576 * (2 + 1))) with (2097152 + 1).
  change (1048576 * 2) with 2097152.
  rewrite primes_in_even_singleton by done. simpl. f_equal. f_equal. lia.
Qed.

Lemma merge_overwrites_last_prime_witness :
  ∃ primes,
    build_base (Z.to_nat 1048576) 1048576 = Some primes ∧
    prime_slice (Z.to_nat 1048576) (make_job primes 1048576 2097153 2 2)
      (Counters 155611 2097143) =
    Some (Counters (total_primes (Counters 155611 2097143)) 0).
Proof.
  apply (merge_overwrites_last_prime (Z.to_nat 1048576) (Counters 155611 2097143));
    simpl; lia.
Defined.

(** ** The program on every valid input *)

(** X1: for every value from 10 to [10^15] and every worker count from 0
    to 100 the program ends with exit code 0 and its last line reports the
    number of primes below [N]; up to [2^20] the last prime it reports is
    the greatest prime below [N]. *)
Theorem program_counts_primes (fuel : nat) (junk N : Z) (rest : list Z) :
  10 <= N <= 1000000000000000 → workers_ok rest → N + 16 <= Z.of_nat fuel →
  ∃ out last,
    main fuel junk (N :: rest) = Some (Outcome 0 out) ∧
    list.last out = Some (ThereAre (pi N) N last) ∧
    (N <= 2 ^ 20 → greatest_prime_below N last).
Proof.
  change (2 ^ 20) with 1048576. intros HN Hw Hfuel.
  destruct (decide (N <= 1048576)) as [Hs|Hs].
  - destruct (main_unsliced fuel junk N rest) as (p & -> & Hp); [lia|done|done|].
    by eexists _, _.
  - destruct (main_sliced fuel junk N rest)
      as (B & S & pB & _ & _ & _ & _ & ->); [lia|done|done|].
    eexists _, _. split; [done|]. split; [done|]. lia.
Qed.

Lemma program_counts_primes_witness :
  ∃ out last,
    main 116 0 [100; 4] = Some (Outcome 0 out) ∧
    list.last out = Some (ThereAre (pi 100) 100 last) ∧
    (100 <= 2 ^ 20 → greatest_prime_below 100 last).
Proof.
  apply (program_counts_primes 116 0 100 [4]); [lia| |lia].
  unfold workers_ok. simpl. lia.
Defined.

(** X2: above [2^20] the last prime that the program reports is the
    greatest prime below [N] when the window of the last slice, [B * S, N), holds a
    prime, and 0 when it holds none. *)
Theorem last_prime_of_last_slice (fuel : nat) (junk N : Z) (rest : list Z) :
  2 ^ 20 < N <= 1000000000000000 → workers_ok rest → N + 16 <= Z.of_nat fuel →
  ∃ B S count pB last,
    slice_plan N = Strategy B S ∧
    main fuel junk (N :: rest) =
    Some (Outcome 0
      [BasePrimes count B pB; Processing S (workers_of rest);
       ThereAre (pi N) N last]) ∧
    count = pi B ∧ greatest_prime_below B pB ∧
    ((∃ p, Z.prime p ∧ B * S <= p < N) → greatest_prime_below N last) ∧
    ((∀ p, Z.prime p → ¬ B * S <= p < N) → last = 0).
Proof.
  change (2 ^ 20) with 1048576. intros HN Hw Hfuel.
  destruct (main_sliced fuel junk N rest)
    as (B & S & pB & Hplan & _ & _ & HpB & ->); [lia|done|done|].
  eexists B, S, _, pB, _. split; [done|]. split; [done|].
  split; [done|]. split; [done|]. split.
  - intros (p & Hp & Hin).
    destruct (list.last (primes_in (B * S) N)) as [v|] eqn:E.
    + by apply last_primes_in in E.
    + apply last_None in E.
      assert (p ∈ primes_in (B * S) N) as Hel by by apply elem_of_primes_in.
      rewrite E in Hel. by apply not_elem_of_nil in Hel.
  - intros Hnone.
    destruct (primes_in (B * S) N) as [|x l] eqn:E; [done|].
    assert (x ∈ primes_in (B * S) N) as Hel by (rewrite E; by left).
    apply elem_of_primes_in in Hel as [Hx Hin]. by destruct (Hnone x).
Qed.

Lemma last_prime_of_last_slice_witness :
  ∃ B S count pB last,
    slice_plan 2097153 = Strategy B S ∧
    main (Z.to_nat 2097169) 0 [2097153] =
    Some (Outcome 0
      [BasePrimes count B pB; Processing S (workers_of []);
       ThereAre (pi 2097153) 2097153 last]) ∧
    count = pi B ∧ greatest_prime_below B pB ∧
    ((∃ p, Z.prime p ∧ B * S <= p < 2097153) →
       greatest_prime_below 2097153 last) ∧
    ((∀ p, Z.prime p → ¬ B * S <= p < 2097153) → last = 0).
Proof.
  apply (last_prime_of_last_slice (Z.to_nat 2097169) 0 2097153 []); [lia| |lia].
  unfold workers_ok. simpl. lia.
Defined.

(** X3: for every valid plan with slices ([N] at most [10^15], where the
    square root of line 217 is that of the model), the job of slice [i]
    adds to the shared count the number of primes of its window and
    stores as the shared last prime the last prime of its window, or 0
    when the window has none. *)
Theorem slice_merge_effect (fuel : nat) (N B S i : Z) (shared : counters) :
  valid_plan N B S → 1 <= i <= S → 0 <= total_primes shared <= 2 ^ 62 →
  B <= Z.of_nat fuel →
  ∃ primes,
    build_base fuel B = Some primes ∧
    prime_slice fuel (make_job primes B N S i) shared =
    Some (Counters
      (total_primes shared
         + Z.of_nat (length (primes_in (B * i) (Z.min N (B * (i + 1))))))
      (default 0 (list.last (primes_in (B * i) (Z.min N (B * (i + 1))))))).
Proof.
  intros (HB & HB16 & _ & [[? _]|(HS & HNS & Hsq)]) Hi Hshared Hfuel; [lia|].
  destruct (build_base_spec fuel B) as (p & Hp & Hrange & _ & Hbase);
    [lia|done|done|].
  exists p. split; [done|]. subst B.
  apply make_job_spec; try done. split; [done|nia].
Qed.

Lemma slice_merge_effect_witness :
  ∃ primes,
    build_base 64 16 = Some primes ∧
    prime_slice 64 (make_job primes 16 65 4 2) (Counters 11 31) =
    Some (Counters
      (total_primes (Counters 11 31)
         + Z.of_nat (length (primes_in (16 * 2) (Z.min 65 (16 * (2 + 1))))))
      (default 0 (list.last (primes_in (16 * 2) (Z.min 65 (16 * (2 + 1))))))).
Proof.
  apply (slice_merge_effect 64 65 16 4 2 (Counters 11 31)); [|lia|simpl; lia|lia].
  split; [lia|]. split; [reflexivity|]. split; [lia|]. right. lia.
Defined.

(** ** Runs *)

(** The reference values of the specification that a run of the model
    reaches: 4 primes below 10, 25 below 100, 168 below 1000, with the
    last primes 7, 97 and 997; the first two evaluated from the reference
    notions as well. *)
Example main_reference_values :
  main 1024 0 [10] = Some (Outcome 0 [ThereAre 4 10 7]) ∧
  main 1024 0 [100] = Some (Outcome 0 [ThereAre 25 100 97]) ∧
  main 1024 0 [1000; 0] = Some (Outcome 0 [ThereAre 168 1000 997]) ∧
  pi 10 = 4 ∧ pi 100 = 25 ∧
  list.last (primes_in 0 10) = Some 7 ∧
  list.last (primes_in 0 100) = Some 97.
Proof. by vm_compute. Qed.

(** The computation with slices on a small scale: a base over [0, 16) and
    four slices for [N = 65].  The count, 18, is the number of primes
    below 65; the last slice is the window of the single value 64 and
    leaves 0 as the last prime, where the greatest prime below 65 is 61;
    with [N = 64] and three slices the last prime is 61. *)
Example small_sliced_runs :
  count_primes 64 65 16 4 0 = Some (Counters 6 13, Counters 18 0) ∧
  count_primes 64 64 16 3 0 = Some (Counters 6 13, Counters 18 61) ∧
  count_primes 64 65 80 0 0 = Some (Counters 18 61, Counters 18 61).
Proof. by vm_compute. Qed.

(** * Properties beyond the specification *)

(** ** The progress display (lines 172-179) *)

Lemma percent_of_spec i S :
  1000 < S <= 21000000 → 0 <= i <= S →
  percent_of i S = (100 * i + S / 2) / S.
Proof.
  intros HS Hi. unfold percent_of.
  assert (0 <= S / 2 <= S) as Hh.
  { split; [apply Z.div_pos; lia|].
    apply Z.div_le_upper_bound; lia. }
  rewrite (Z.quot_div_nonneg S 2) by lia.
  rewrite (to_int_id (S / 2)) by (apply fits_int_bounds; lia).
  rewrite (to_int_id (i * 100)) by (apply fits_int_bounds; lia).
  rewrite (to_int_id (i * 100 + S / 2)) by (apply fits_int_bounds; lia).
  rewrite Z.quot_div_nonneg by lia.
  assert (0 <= (i * 100 + S / 2) / S <= 101) as Hq.
  { split; [apply Z.div_pos; lia|].
    apply Z.div_le_upper_bound; lia. }
  rewrite to_int_id by (apply fits_int_bounds; lia).
  f_equal. lia.
Qed.

Lemma percent_of_first S : 1000 < S <= 21000000 → percent_of 1 S = 0.
Proof.
  intros HS. rewrite percent_of_spec by lia.
  apply Z.div_small.
  pose proof (Z.div_mod S 2 ltac:(lia)).
  pose proof (Z.mod_pos_bound S 2 ltac:(lia)). lia.
Qed.

Lemma percent_of_last S : 1000 < S <= 21000000 → percent_of S S = 100.
Proof.
  intros HS. rewrite percent_of_spec by lia.
  symmetry. apply (Z.div_unique _ _ _ (S / 2)); [|lia].
  left. split; [apply Z.div_pos; lia|].
  apply Z.div_lt_upper_bound; lia.
Qed.

Lemma percent_of_step i S :
  1000 < S <= 21000000 → 1 <= i < S →
  percent_of (i + 1) S = percent_of i S ∨
  percent_of (i + 1) S = percent_of i S + 1.
Proof.
  intros HS Hi. rewrite !percent_of_spec by lia.
  set (a := 100 * i + S / 2).
  replace (100 * (i + 1) + S / 2) with (a + 100) by (unfold a; lia).
  assert (0 <= S / 2) by (apply Z.div_pos; lia).
  pose proof (Z.div_mod a S ltac:(lia)) as Ha.
  pose proof (Z.mod_pos_bound a S ltac:(lia)) as Hr.
  assert (a / S <= (a + 100) / S) by (apply Z.div_le_mono; lia).
  assert ((a + 100) / S < a / S + 2).
  { apply Z.div_lt_upper_bound; lia. }
  lia.
Qed.

Lemma percent_of_bounds i S :
  1000 < S <= 21000000 → 1 <= i <= S → 0 <= percent_of i S <= 100.
Proof.
  intros HS Hi. rewrite percent_of_spec by lia.
  assert (0 <= S / 2 < S) as Hh.
  { split; [apply Z.div_pos; lia|]. apply Z.div_lt_upper_bound; lia. }
  split; [apply Z.div_pos; lia|].
  assert ((100 * i + S / 2) / S < 101); [|lia].
  apply Z.div_lt_upper_bound; [lia|].
  assert (100 * i <= 100 * S) by lia. lia.
Qed.

Lemma seqZ_snoc n : 0 <= n → seqZ 0 (n + 1) = seqZ 0 n ++ [n].
Proof. intros Hn. by rewrite seqZ_app, seqZ_one by lia. Qed.

(** With at most 1000 slices the loop prints nothing; with more it prints
    the percentages from 0 to 100, each once. *)
Lemma progress_lines_spec fuel S :
  0 <= S <= 21000000 → S <= Z.of_nat fuel →
  progress_lines fuel S = Some (if 1000 <? S then full_progress else []).
Proof.
  intros HS Hfuel. unfold progress_lines.
  destruct (Z.ltb_spec 1000 S) as [Hbig|Hsmall].
  - pose (line := λ p, Progress p (p =? 100)).
    pose (Inv := λ st : Z * (Z * list progress),
      1 <= st.1 <= S + 1 ∧
      ((st.1 = 1 ∧ st.2.1 = -1 ∧ st.2.2 = []) ∨
       (1 < st.1 ∧ st.2.1 = percent_of (st.1 - 1) S ∧
        st.2.2 = line <$> seqZ 0 (st.2.1 + 1)))).
    loop_rule Inv (λ st : Z * (Z * list progress), S + 1 - st.1) Hloop.
    + intros [i [pp shown]] (Hi & Hst) Hcond. cbn [fst snd] in *.
      apply Z.leb_le in Hcond. split; [lia|].
      rewrite (to_int_id (i + 1)) by (apply fits_int_bounds; lia).
      eexists. split; [done|]. split; [|cbn [fst snd]; lia].
      unfold Inv. cbn [fst snd]. split; [lia|]. right. split; [lia|].
      replace (i + 1 - 1) with i by lia.
      destruct Hst as [(-> & -> & ->)|(Hi1 & -> & ->)].
      * rewrite percent_of_first by lia. by cbn.
      * pose proof (percent_of_bounds (i - 1) S ltac:(lia) ltac:(lia)) as Hb.
        destruct (percent_of_step (i - 1) S ltac:(lia) ltac:(lia)) as [E|E];
          replace (i - 1 + 1) with i in E by lia; rewrite E.
        -- rewrite Z.eqb_refl. by cbn [fst snd].
        -- rewrite (proj2 (Z.eqb_neq _ _)) by lia. cbn [fst snd].
           split; [done|].
           rewrite (seqZ_snoc (percent_of (i - 1) S + 1)) by lia.
           by rewrite fmap_app.
    + unfold Inv. simpl. split; [lia|]. left. done.
    + simpl. lia.
    + destruct Hloop as ([i [pp shown]] & -> & (Hi & Hst) & Hexit).
      simpl in *. apply Z.leb_gt in Hexit.
      assert (i = S + 1) as -> by lia.
      destruct Hst as [(? & _)|(_ & -> & ->)]; [lia|].
      replace (S + 1 - 1) with S by lia.
      by rewrite percent_of_last by lia.
  - pose (Inv := λ st : Z * (Z * list progress),
      1 <= st.1 <= S + 1 ∧ st.2.2 = []).
    loop_rule Inv (λ st : Z * (Z * list progress), S + 1 - st.1) Hloop.
    + intros [i [pp shown]] (Hi & Hst) Hcond. simpl in *.
      apply Z.leb_le in Hcond. split; [lia|].
      rewrite (to_int_id (i + 1)) by (apply fits_int_bounds; lia).
      eexists. split; [done|]. split; [|simpl; lia].
      unfold Inv. simpl. split; [lia|done].
    + unfold Inv. simpl. split; [lia|done].
    + simpl. lia.
    + destruct Hloop as ([i [pp shown]] & -> & (Hi & Hst) & Hexit).
      simpl in *. by subst.
Qed.

(** X8: the progress lines of a run.  For every value up to [4 * 10^14] the
    percentage of line 173 is computed without overflow; the loop prints
    nothing when the plan has at most 1000 slices, which is the case
    exactly up to [N = 1001 * 2^20], and otherwise the 101 lines from 0%
    to 100%, in order, each once, only the last one marked as done. *)
Theorem progress_display (fuel : nat) (N : Z) :
  10 <= N <= 400000000000000 → N <= Z.of_nat fuel →
  ∃ B S, slice_plan N = Strategy B S ∧
    fits_int (S * 100 + S / 2) ∧
    progress_lines fuel S = Some (if 1000 <? S then full_progress else []) ∧
    (1000 < S ↔ 1049624576 < N).
Proof.
  intros HN Hfuel.
  assert (∃ B S, slice_plan N = Strategy B S ∧ 0 <= S <= 21000000 ∧ S <= N ∧
                 (1000 < S ↔ 1049624576 < N)) as (B & S & Hplan & HS & HSN & Hiff).
  { destruct (decide (N <= 1048576)) as [Hs|Hs].
    - destruct (slice_plan_small N) as (B & -> & _); [lia|].
      exists B, 0. split; [done|]. lia.
    - destruct (decide (N <= 1000000000000)) as [Hm|Hm].
      + destruct (slice_plan_medium N) as (S & -> & HS & HNS); [lia|].
        exists 1048576, S. split; [done|]. lia.
      + destruct (slice_plan_large N)
          as (r & B & S & -> & -> & Hr & HB & HB16 & HS & HNS & Hsq); [lia|].
        pose proof (ceil_sqrt_le N 20000000 ltac:(lia) ltac:(lia) ltac:(lia)).
        assert (S < B).
        { destruct (decide (S < B)) as [|Hge]; [done|exfalso].
          assert (B * B <= S * B) by (apply Z.mul_le_mono_nonneg_r; lia). lia. }
        assert ((S + 1) * B <= (S + 1) * 20000016)
          by (apply Z.mul_le_mono_nonneg_l; lia).
        assert (S * 1 <= S * B) by (apply Z.mul_le_mono_nonneg_l; lia).
        exists B, S. split; [done|]. lia. }
  exists B, S. split; [done|]. split.
  - assert (0 <= S / 2 <= S).
    { split; [apply Z.div_pos; lia|]. apply Z.div_le_upper_bound; lia. }
    apply fits_int_bounds. lia.
  - split; [|done]. apply progress_lines_spec; lia.
Qed.

Lemma progress_display_witness :
  ∃ B S, slice_plan 2000000000 = Strategy B S ∧
    fits_int (S * 100 + S / 2) ∧
    progress_lines (Z.to_nat 2000000000) S =
      Some (if 1000 <? S then full_progress else []) ∧
    (1000 < S ↔ 1049624576 < 2000000000).
Proof. apply (progress_display (Z.to_nat 2000000000) 2000000000); lia. Defined.

Lemma to_int_wrap z :
  2147483648 <= z < 6442450944 → to_int z = z - 4294967296.
Proof.
  intros Hz. unfold to_int.
  change (2 ^ 31) with 2147483648. change (2 ^ 32) with 4294967296.
  rewrite <-(Z.mod_unique (z + 2147483648) 4294967296 1 (z - 2147483648)); lia.
Qed.

Lemma to_int_range z : - 2147483648 <= to_int z <= 2147483647.
Proof.
  unfold to_int. change (2 ^ 31) with 2147483648. change (2 ^ 32) with 4294967296.
  pose proof (Z.mod_pos_bound (z + 2147483648) 4294967296 ltac:(lia)). lia.
Qed.

(** With more than [INT_MAX / 100] slices no percentage reaches 100,
    whatever the product of line 173 wraps to. *)
Lemma percent_of_below_100 i S :
  21474837 <= S <= 31622784 → percent_of i S <= 99.
Proof.
  intros HS. unfold percent_of.
  pose proof (to_int_range (to_int (i * 100) + to_int (Z.quot S 2))) as Ha.
  set (a := to_int (to_int (i * 100) + to_int (Z.quot S 2))) in *.
  assert (- 100 <= Z.quot a S <= 99) as Hq.
  { destruct (decide (0 <= a)) as [Hpos|Hneg].
    - rewrite Z.quot_div_nonneg by lia. split.
      + assert (0 <= a / S) by (apply Z.div_pos; lia). lia.
      + assert (a / S < 100); [|lia]. apply Z.div_lt_upper_bound; lia.
    - replace a with (- - a) by lia. rewrite Z.quot_opp_l by lia.
      rewrite Z.quot_div_nonneg by lia.
      assert (0 <= - a / S) by (apply Z.div_pos; lia).
      assert (- a / S <= 100); [|lia]. apply Z.div_le_upper_bound; lia. }
  rewrite to_int_id by (apply fits_int_bounds; lia). lia.
Qed.

Lemma progress_lines_unfinished fuel S :
  21474837 <= S <= 31622784 → S <= Z.of_nat fuel →
  ∃ lines, progress_lines fuel S = Some lines ∧
    ∀ p finished, Progress p finished ∈ lines → finished = false.
Proof.
  intros HS Hfuel. unfold progress_lines.
  rewrite (proj2 (Z.ltb_lt 1000 S)) by lia.
  pose (Inv := λ st : Z * (Z * list progress),
    1 <= st.1 <= S + 1 ∧
    ∀ p finished, Progress p finished ∈ st.2.2 → finished = false).
  loop_rule Inv (λ st : Z * (Z * list progress), S + 1 - st.1) Hloop.
  - intros [i [pp shown]] (Hi & Hst) Hcond. cbn [fst snd] in *.
    apply Z.leb_le in Hcond. split; [lia|].
    rewrite (to_int_id (i + 1)) by (apply fits_int_bounds; lia).
    eexists. split; [done|]. split; [|cbn [fst snd]; lia].
    unfold Inv. cbn [fst snd]. split; [lia|].
    pose proof (percent_of_below_100 i S HS) as Hp.
    destruct (percent_of i S =? pp); cbn [fst snd]; [done|].
    intros p finished [Hin|Hin%list_elem_of_singleton]%elem_of_app.
    + by apply (Hst p).
    + injection Hin as _ ->. apply Z.eqb_neq. lia.
  - unfold Inv. cbn [fst snd]. split; [lia|].
    intros p finished Hin. by apply not_elem_of_nil in Hin.
  - cbn [fst snd]. lia.
  - destruct Hloop as ([i [pp shown]] & -> & (Hi & Hst) & Hexit).
    cbn [fst snd] in *. by exists shown.
Qed.

(** X9: from [4.7 * 10^14] on, the product [slice * 100] of line 173
    leaves the range of [int] before the loop ends; where the overflow
    wraps around, the percentage of the last slice is negative, and the
    loop ends without a line that is marked as done. *)
Theorem progress_overflows (fuel : nat) (N : Z) :
  470000000000000 <= N <= 1000000000000000 → N <= Z.of_nat fuel →
  ∃ B S lines, slice_plan N = Strategy B S ∧ 1000 < S ∧
    ¬ fits_int (S * 100) ∧ percent_of S S < 0 ∧
    progress_lines fuel S = Some lines ∧
    ∀ p finished, Progress p finished ∈ lines → finished = false.
Proof.
  intros HN Hfuel.
  destruct (slice_plan_large N)
    as (r & B & S & -> & -> & Hr & HB & HB16 & HS & HNS & Hsq); [lia|].
  destruct (ceil_sqrt_spec N ltac:(lia)) as (_ & Hlo & Hhi).
  set (r := ceil_sqrt N) in *.
  assert (21679484 <= r).
  { destruct (decide (21679484 <= r)) as [|Hlt]; [done|exfalso].
    assert (r * r <= 21679483 * 21679483)
      by (apply Z.mul_le_mono_nonneg; lia). lia. }
  assert (21474837 <= S).
  { destruct (decide (21474837 <= S)) as [|Hlt]; [done|exfalso].
    assert ((S + 1) * B <= 21474837 * B)
      by (apply Z.mul_le_mono_nonneg_r; lia).
    assert (21679483 * (r - 1) <= (r - 1) * (r - 1))
      by (apply Z.mul_le_mono_nonneg_r; lia). lia. }
  assert (S < B).
  { destruct (decide (S < B)) as [|Hge]; [done|exfalso].
    assert (B * B <= S * B) by (apply Z.mul_le_mono_nonneg_r; lia). lia. }
  assert (S * 1 <= S * B) by (apply Z.mul_le_mono_nonneg_l; lia).
  pose proof (Z.div_mod B 16 ltac:(lia)).
  destruct (progress_lines_unfinished fuel S) as (lines & Hlines & Hnone);
    [lia|lia|].
  exists B, S, lines. split; [done|]. split; [lia|]. split.
  { unfold fits_int, INT_MAX. lia. }
  split; [|done].
  unfold percent_of.
  assert (0 <= S / 2 <= S) as Hh.
  { split; [apply Z.div_pos; lia|]. apply Z.div_le_upper_bound; lia. }
  rewrite (Z.quot_div_nonneg S 2) by lia.
  rewrite (to_int_id (S / 2)) by (apply fits_int_bounds; lia).
  rewrite (to_int_wrap (S * 100)) by lia.
  set (a := S * 100 - 4294967296 + S / 2).
  assert (- 2147483648 <= a < - S) as Ha by (unfold a; lia).
  rewrite (to_int_id a) by (apply fits_int_bounds; lia).
  replace a with (- - a) by lia. rewrite Z.quot_opp_l by lia.
  rewrite Z.quot_div_nonneg by lia.
  assert (1 <= - a / S <= 101) as Hq.
  { split; [apply Z.div_le_lower_bound; lia|].
    apply Z.div_le_upper_bound; lia. }
  rewrite to_int_id by (apply fits_int_bounds; lia). lia.
Qed.

Lemma progress_overflows_witness :
  ∃ B S lines, slice_plan 1000000000000000 = Strategy B S ∧ 1000 < S ∧
    ¬ fits_int (S * 100) ∧ percent_of S S < 0 ∧
    progress_lines (Z.to_nat 1000000000000000) S = Some lines ∧
    ∀ p finished, Progress p finished ∈ lines → finished = false.
Proof.
  apply (progress_overflows (Z.to_nat 1000000000000000) 1000000000000000); lia.
Defined.

(** ** The strategy on every valid input (lines 76-96) *)

(** X5: for every value from 10 to [10^15] the strategy has a base bound
    that is a multiple of 16 between 16 and 31622784 (a base buffer of at
    most 1976424 bytes) and whose square reaches [N], and a number of
    slices below the base bound such that the base and the slices end
    within one window length after [N]. *)
Theorem slice_plan_adequate (N : Z) :
  10 <= N <= 1000000000000000 →
  ∃ B S, slice_plan N = Strategy B S ∧
    16 <= B <= 31622784 ∧ B mod 16 = 0 ∧ N <= B * B ∧
    0 <= S < B ∧ S * B < N <= (S + 1) * B.
Proof.
  intros HN.
  destruct (decide (N <= 1048576)) as [Hs|Hs].
  - destruct (slice_plan_small N) as (B & -> & HB & HB16); [lia|].
    exists B, 0. split; [done|].
    pose proof (Z.div_mod B 16 ltac:(lia)).
    assert (B * 1 <= B * B) by (apply Z.mul_le_mono_nonneg_l; lia). lia.
  - destruct (decide (N <= 1000000000000)) as [Hm|Hm].
    + destruct (slice_plan_medium N) as (S & -> & HS & HNS); [lia|].
      exists 1048576, S. split; [done|]. split; [lia|]. split; [done|]. lia.
    + destruct (slice_plan_large N)
        as (r & B & S & -> & -> & Hr & HB & HB16 & HS & HNS & Hsq); [lia|].
      assert (S < B).
      { destruct (decide (S < B)) as [|Hge]; [done|exfalso].
        assert (B * B <= S * B) by (apply Z.mul_le_mono_nonneg_r; lia). lia. }
      pose proof (Z.div_mod B 16 ltac:(lia)).
      exists B, S. split; [done|]. lia.
Qed.

Lemma slice_plan_adequate_witness :
  ∃ B S, slice_plan 1000000000000000 = Strategy B S ∧
    16 <= B <= 31622784 ∧ B mod 16 = 0 ∧ 1000000000000000 <= B * B ∧
    0 <= S < B ∧ S * B < 1000000000000000 <= (S + 1) * B.
Proof. apply (slice_plan_adequate 1000000000000000); lia. Defined.

(** ** The uninitialised variable of line 117 *)

(** X6: the output does not depend on what [last_prime] holds before the
    scan of line 119 assigns it: an input is either refused before the
    scan, or the scan finds a prime. *)
Theorem uninitialised_last_prime_unobserved
    (fuel : nat) (junk junk' N : Z) (rest : list Z) :
  N + 16 <= Z.of_nat fuel →
  main fuel junk (N :: rest) = main fuel junk' (N :: rest).
Proof.
  intros Hfuel.
  destruct (decide (N < 10)) as [Hlo|Hlo].
  { unfold main. by rewrite slice_plan_too_small. }
  destruct (decide (1000000000000000 < N)) as [Hhi|Hhi].
  { unfold main. by rewrite slice_plan_too_large. }
  destruct (decide (workers_ok rest)) as [Hw|Hw].
  - destruct (decide (N <= 1048576)) as [Hs|Hs].
    + destruct (main_unsliced fuel junk N rest) as (p & -> & Hp); [lia|done|done|].
      destruct (main_unsliced fuel junk' N rest) as (p' & -> & Hp');
        [lia|done|done|].
      by rewrite (greatest_prime_below_unique _ _ _ Hp Hp').
    + destruct (main_sliced fuel junk N rest)
        as (B & S & pB & Hplan & _ & _ & HpB & ->); [lia|done|done|].
      destruct (main_sliced fuel junk' N rest)
        as (B' & S' & pB' & Hplan' & _ & _ & HpB' & ->); [lia|done|done|].
      rewrite Hplan in Hplan'. injection Hplan' as <- <-.
      by rewrite (greatest_prime_below_unique _ _ _ HpB HpB').
  - destruct (slice_plan_valid N) as (B & S & Hplan & _); [lia|].
    unfold workers_ok in Hw. unfold main. rewrite Hplan.
    destruct (Z.ltb_spec (workers_of rest) 0); [done|].
    destruct (Z.ltb_spec 100 (workers_of rest)); [done|lia].
Qed.

Lemma uninitialised_last_prime_unobserved_witness :
  main 116 0 [100] = main 116 12345 [100].
Proof. apply (uninitialised_last_prime_unobserved 116 0 12345 100 []). lia. Defined.

(** ** Values just above a multiple of the window length *)

(** X7: for every [N = k * 2^20 + 1] from [2^20 + 1] to [10^12] the last
    slice is the window of the single even value [k * 2^20]: the program
    counts the primes below [N] and prints 0 as the last prime, where the
    greatest prime below [N] is at least 1048573. *)
Theorem last_prime_zero_after_full_slices
    (fuel : nat) (junk k : Z) (rest : list Z) :
  let N := k * 1048576 + 1 in
  1 <= k → N <= 1000000000000 → workers_ok rest → N + 16 <= Z.of_nat fuel →
  main fuel junk (N :: rest) =
  Some (Outcome 0
    [BasePrimes (pi 1048576) 1048576 1048573;
     Processing k (workers_of rest);
     ThereAre (pi N) N 0]) ∧
  ∃ p, greatest_prime_below N p ∧ 1048573 <= p.
Proof.
  intros N Hk HN Hw Hfuel. split.
  - destruct (main_sliced fuel junk N rest)
      as (B & S & pB & Hplan & _ & _ & HpB & ->); [unfold N in *; lia|done|done|].
    destruct (slice_plan_medium N) as (S' & Hplan' & HS' & HNS');
      [unfold N in *; lia|].
    rewrite Hplan' in Hplan. injection Hplan as <- <-.
    assert (S' = k) as -> by (unfold N in *; lia).
    rewrite (greatest_prime_below_unique _ _ _ HpB greatest_prime_below_1048576).
    replace (1048576 * k) with (k * 1048576) by lia.
    unfold N at 4. rewrite primes_in_even_singleton; [done| |lia].
    by rewrite Z.odd_mul, andb_false_r.
  - destruct (last_primes_from_3 N) as (v & _ & Hv); [unfold N; lia|].
    apply last_primes_in in Hv as Hgreat. exists v. split; [done|].
    destruct Hgreat as (_ & _ & Hmax).
    apply Hmax; [apply greatest_prime_below_1048576|unfold N; lia].
Qed.

Lemma last_prime_zero_after_full_slices_witness :
  main (Z.to_nat 3145745) 0 [3 * 1048576 + 1] =
  Some (Outcome 0
    [BasePrimes (pi 1048576) 1048576 1048573;
     Processing 3 (workers_of []);
     ThereAre (pi (3 * 1048576 + 1)) (3 * 1048576 + 1) 0]) ∧
  ∃ p, greatest_prime_below (3 * 1048576 + 1) p ∧ 1048573 <= p.
Proof.
  apply (last_prime_zero_after_full_slices (Z.to_nat 3145745) 0 3 []);
    [lia|lia| |lia].
  unfold workers_ok. simpl. lia.
Defined.

(** ** The sieve of a slice (lines 216-224) *)

(** The buffer of a slice after its sieve, for a base that is right: the
    odd offsets left unmarked are those of the primes, up to the end of
    the aligned window. *)
Lemma sieve_slice_window fuel cxt :
  let start := slice_start cxt in
  let B := range (base_primes cxt) in
  let slice_count := round_up_16 (slice_values cxt) in
  16 <= B <= 2 ^ 28 → B <= start <= 2 ^ 60 → Z.odd start = false →
  0 <= slice_values cxt <= B → B mod 16 = 0 →
  start + slice_count <= B * B →
  (∀ w, Z.odd w = true → 3 <= w < B →
        marked (base_primes cxt) w = false ↔ Z.prime w) →
  B <= Z.of_nat fuel →
  ∃ s, sieve_slice fuel cxt slice_count
         (to_int (ceil_sqrt (start +ᵤ to_u64 slice_count)))
         (calloc (Z.quot slice_count 16)) = Some s ∧
       range s = slice_count ∧
       ∀ c, Z.odd c = true → 0 <= c < slice_count →
            marked s c = false ↔ Z.prime (start + c).
Proof.
  intros start B aligned HB Hstart Heven Hvalues HB16 Hsq Hbase Hfuel.
  destruct (round_up_16_bounds (slice_values cxt) ltac:(lia)) as [Hal Hal16].
  fold aligned in Hal, Hal16.
  assert (aligned <= B) as HalB.
  { pose proof (Z.div_mod aligned 16 ltac:(lia)).
    pose proof (Z.div_mod B 16 ltac:(lia)). lia. }
  rewrite (to_u64_id aligned) by (apply fits_u64_bounds; lia).
  rewrite (to_u64_id (start + aligned)) by (apply fits_u64_bounds; lia).
  destruct (ceil_sqrt_spec (start + aligned) ltac:(lia)) as (Hl0 & Hl1 & Hl2).
  pose proof (ceil_sqrt_le (start + aligned) B ltac:(lia) ltac:(lia) Hsq) as HlB.
  set (limit := ceil_sqrt (start + aligned)) in *.
  rewrite (to_int_id limit) by (apply fits_int_bounds; lia).
  rewrite Z.quot_div_nonneg by lia.
  assert (range (calloc (aligned / 16)) = aligned) as Hrange.
  { unfold range. rewrite length_calloc.
    pose proof (Z.div_mod aligned 16 ltac:(lia)).
    assert (0 <= aligned / 16) by (apply Z.div_pos; lia). lia. }
  destruct (sieve_slice_spec fuel cxt aligned limit (calloc (aligned / 16)))
    as (s & -> & Hlen & Hbits); fold start; try lia; try done.
  { intros w How Hw. apply Hbase; [done|lia]. }
  exists s. split; [done|]. split.
  { unfold range in *. by rewrite Hlen. }
  intros c Hoc Hc.
  rewrite <-not_true_iff_false, Hbits, marked_calloc by (done || lia).
  assert (Z.odd (start + c) = true) as Hsum by by rewrite Z.odd_add, Heven, Hoc.
  rewrite has_factor_below_complete by (done || lia).
  split.
  - intros Hn. destruct (prime_dec (start + c)) as [|Hnp]; [done|].
    destruct Hn. right. split; [lia|done].
  - intros Hp [|[_ Hnp]]; done.
Qed.

(** X4: for every valid plan with slices ([N] at most [10^15]) and every
    slice [i], the operand of the square root of line 217 is below
    [2^52]; the sieve of the slice stays inside its buffer and inside the
    base table, and leaves unmarked exactly the odd offsets of the
    primes: over the whole aligned window, the values past
    [slice_values] included, so that it marks no prime. *)
Theorem slice_sieve_correct (fuel : nat) (N B S i : Z) :
  valid_plan N B S → 1 <= i <= S → B <= Z.of_nat fuel →
  ∃ primes s,
    build_base fuel B = Some primes ∧
    let cxt := make_job primes B N S i in
    let slice_count := round_up_16 (slice_values cxt) in
    sieve_slice fuel cxt slice_count
      (to_int (ceil_sqrt (slice_start cxt +ᵤ to_u64 slice_count)))
      (calloc (Z.quot slice_count 16)) = Some s ∧
    range s = slice_count ∧
    slice_values cxt <= slice_count < slice_values cxt + 16 ∧
    slice_start cxt + slice_count < 2 ^ 52 ∧
    ∀ c, Z.odd c = true → 0 <= c < slice_count →
         marked s c = false ↔ Z.prime (B * i + c).
Proof.
  intros (HB & HB16 & HN & [[? _]|(HS & HNS & Hsq)]) Hi Hfuel; [lia|].
  destruct (build_base_spec fuel B) as (p & Hp & Hrange & _ & Hbase);
    [lia|done|done|].
  assert (S < B).
  { destruct (decide (S < B)) as [|Hge]; [done|exfalso].
    assert (B * B <= S * B) by (apply Z.mul_le_mono_nonneg_r; lia). lia. }
  assert (B * 1 <= B * i <= B * S)
    by (split; apply Z.mul_le_mono_nonneg_l; lia).
  assert (B * S <= B * (B - 1)) by (apply Z.mul_le_mono_nonneg_l; lia).
  assert (B * B <= 2 ^ 28 * 2 ^ 28) by (apply Z.mul_le_mono_nonneg; lia).
  destruct (make_job_window p B N S i HB HNS Hsq Hi) as [Hstart Hvalues].
  set (cxt := make_job p B N S i) in *.
  assert (0 <= slice_values cxt <= B) as Hv by lia.
  pose proof (round_up_16_bounds (slice_values cxt) ltac:(lia)) as [Hal _].
  assert ((B * B - B * i) mod 16 = 0) as Hmod.
  { replace (B * B - B * i) with ((B - i) * (B / 16) * 16).
    - apply Z.mod_mul. lia.
    - pose proof (Z.div_mod B 16 ltac:(lia)) as E. rewrite HB16 in E.
      rewrite E at 3 4. lia. }
  pose proof (round_up_16_le (slice_values cxt) (B * B - B * i)
                ltac:(lia) ltac:(lia) Hmod) as Hle.
  destruct (sieve_slice_window fuel cxt) as (s & Hs & Hrs & Hbits);
    change (range (base_primes cxt)) with (range p);
    rewrite ?Hrange, ?Hstart; try done; try lia.
  { by rewrite Z.odd_mul, multiple_of_16_even. }
  exists p, s. split; [done|]. simpl. fold cxt.
  split; [done|]. split; [done|]. split; [done|]. split.
  { change (slice_start cxt + round_up_16 (slice_values cxt) < 2 ^ 52). lia. }
  intros c Hoc Hc. rewrite <-Hstart. by apply Hbits.
Qed.

Lemma slice_sieve_correct_witness :
  ∃ primes s,
    build_base 64 16 = Some primes ∧
    let cxt := make_job primes 16 65 4 2 in
    let slice_count := round_up_16 (slice_values cxt) in
    sieve_slice 64 cxt slice_count
      (to_int (ceil_sqrt (slice_start cxt +ᵤ to_u64 slice_count)))
      (calloc (Z.quot slice_count 16)) = Some s ∧
    range s = slice_count ∧
    slice_values cxt <= slice_count < slice_values cxt + 16 ∧
    slice_start cxt + slice_count < 2 ^ 52 ∧
    ∀ c, Z.odd c = true → 0 <= c < slice_count →
         marked s c = false ↔ Z.prime (16 * 2 + c).
Proof.
  apply (slice_sieve_correct 64 65 16 4 2); [|lia|lia].
  split; [lia|]. split; [reflexivity|]. split; [lia|]. right. lia.
Defined.

(** ** The two merges (lines 240-251) *)

Lemma to_u64_add_l a b : to_u64 (to_u64 a + b) = to_u64 (a + b).
Proof. unfold to_u64. by rewrite Z.add_mod_idemp_l. Qed.

Lemma total_merge_all op s l :
  (∀ c x, total_primes (op c x) = total_primes c +ᵤ total_primes x) →
  fits_u64 (total_primes s) →
  total_primes (merge_all op s l) =
  to_u64 (total_primes s + foldr Z.add 0 (total_primes <$> l)).
Proof.
  intros Hop. unfold merge_all. revert s.
  induction l as [|x l IH]; intros s Hs; simpl.
  - by rewrite Z.add_0_r, to_u64_id.
  - rewrite IH, Hop.
    + rewrite to_u64_add_l. f_equal. by rewrite <-Z.add_assoc.
    + rewrite Hop. unfold fits_u64, UINT64_MAX, to_u64.
      pose proof (Z.mod_pos_bound (total_primes s + total_primes x) (2 ^ 64)).
      lia.
Qed.

Lemma foldr_add_permutation (l l' : list Z) :
  l ≡ₚ l' → foldr Z.add 0 l = foldr Z.add 0 l'.
Proof. induction 1; simpl; lia. Qed.

Lemma foldr_max_permutation a (l l' : list Z) :
  l ≡ₚ l' → foldr Z.max a l = foldr Z.max a l'.
Proof. induction 1; simpl; lia. Qed.

Lemma foldr_max_init a b l :
  foldr Z.max (Z.max a b) l = Z.max (foldr Z.max a l) b.
Proof. induction l as [|x l IH]; simpl; lia. Qed.

Lemma last_merge_all s l :
  last_prime (merge_all merge s l) =
  default (last_prime s) (last_prime <$> list.last l).
Proof.
  unfold merge_all. revert s. induction l as [|x l IH]; intros s; [done|].
  simpl. rewrite IH. destruct l as [|y l]; [done|].
  rewrite last_cons_cons.
  destruct (list.last (y :: l)) eqn:E; [done|]. by apply last_None in E.
Qed.

Lemma last_merge_all_atomic s l :
  last_prime (merge_all merge_atomic s l) =
  foldr Z.max (last_prime s) (last_prime <$> l).
Proof.
  unfold merge_all. revert s. induction l as [|x l IH]; intros s; [done|].
  simpl. rewrite IH. simpl.
  replace (if last_prime s <? last_prime x then last_prime x else last_prime s)
    with (Z.max (last_prime s) (last_prime x))
    by (destruct (Z.ltb_spec (last_prime s) (last_prime x)); lia).
  rewrite foldr_max_init. apply Z.max_comm.
Qed.

(** X10: after the merges of lines 242-243 for a sequence of slice results,
    the shared count is the initial count plus the sum of the counts of
    the slices, modulo [2^64], whatever the order of the merges, and the
    shared last prime is the last prime of the result merged last. *)
Theorem merge_sequence (shared : counters) (found : list counters) :
  fits_u64 (total_primes shared) →
  total_primes (merge_all merge shared found) =
    to_u64 (total_primes shared + foldr Z.add 0 (total_primes <$> found)) ∧
  last_prime (merge_all merge shared found) =
    default (last_prime shared) (last_prime <$> list.last found) ∧
  ∀ found', found ≡ₚ found' →
    total_primes (merge_all merge shared found) =
    total_primes (merge_all merge shared found').
Proof.
  intros Hs. split; [by apply total_merge_all|]. split; [apply last_merge_all|].
  intros found' Hperm. rewrite !(total_merge_all merge) by done.
  by rewrite (foldr_add_permutation _ _ (fmap_Permutation total_primes _ _ Hperm)).
Qed.

Lemma merge_sequence_witness :
  let shared := Counters 6 13 in
  let found := [Counters 5 31; Counters 4 47; Counters 3 61; Counters 0 0] in
  total_primes (merge_all merge shared found) =
    to_u64 (total_primes shared + foldr Z.add 0 (total_primes <$> found)) ∧
  last_prime (merge_all merge shared found) =
    default (last_prime shared) (last_prime <$> list.last found) ∧
  ∀ found', found ≡ₚ found' →
    total_primes (merge_all merge shared found) =
    total_primes (merge_all merge shared found').
Proof.
  apply (merge_sequence (Counters 6 13)
           [Counters 5 31; Counters 4 47; Counters 3 61; Counters 0 0]).
  unfold fits_u64, UINT64_MAX. simpl. lia.
Defined.

(** X11: after the merges of lines 245-250, the branch that is compiled
    out, the shared count is the same sum and the shared last prime is the
    greatest of the initial one and the last primes of the slices: the
    counters do not depend on the order of the merges. *)
Theorem merge_atomic_sequence (shared : counters) (found : list counters) :
  fits_u64 (total_primes shared) →
  total_primes (merge_all merge_atomic shared found) =
    to_u64 (total_primes shared + foldr Z.add 0 (total_primes <$> found)) ∧
  last_prime (merge_all merge_atomic shared found) =
    foldr Z.max (last_prime shared) (last_prime <$> found) ∧
  ∀ found', found ≡ₚ found' →
    merge_all merge_atomic shared found = merge_all merge_atomic shared found'.
Proof.
  intros Hs. split; [by apply total_merge_all|].
  split; [apply last_merge_all_atomic|].
  intros found' Hperm.
  pose proof (total_merge_all merge_atomic shared found ltac:(done) Hs) as Ht.
  pose proof (total_merge_all merge_atomic shared found' ltac:(done) Hs) as Ht'.
  pose proof (last_merge_all_atomic shared found) as Hl.
  pose proof (last_merge_all_atomic shared found') as Hl'.
  rewrite (foldr_add_permutation _ _ (fmap_Permutation total_primes _ _ Hperm))
    in Ht.
  rewrite (foldr_max_permutation _ _ _ (fmap_Permutation last_prime _ _ Hperm))
    in Hl.
  destruct (merge_all merge_atomic shared found),
           (merge_all merge_atomic shared found'). simpl in *. congruence.
Qed.

Lemma merge_atomic_sequence_witness :
  let shared := Counters 6 13 in
  let found := [Counters 5 31; Counters 4 47; Counters 3 61; Counters 0 0] in
  total_primes (merge_all merge_atomic shared found) =
    to_u64 (total_primes shared + foldr Z.add 0 (total_primes <$> found)) ∧
  last_prime (merge_all merge_atomic shared found) =
    foldr Z.max (last_prime shared) (last_prime <$> found) ∧
  ∀ found', found ≡ₚ found' →
    merge_all merge_atomic shared found = merge_all merge_atomic shared found'.
Proof.
  apply (merge_atomic_sequence (Counters 6 13)
           [Counters 5 31; Counters 4 47; Counters 3 61; Counters 0 0]).
  unfold fits_u64, UINT64_MAX. simpl. lia.
Defined.

Lemma merge_all_atomic_permutation s l l' :
  fits_u64 (total_primes s) → l ≡ₚ l' →
  merge_all merge_atomic s l = merge_all merge_atomic s l'.
Proof.
  intros Hs Hperm.
  pose proof (total_merge_all merge_atomic s l ltac:(done) Hs) as Ht.
  pose proof (total_merge_all merge_atomic s l' ltac:(done) Hs) as Ht'.
  pose proof (last_merge_all_atomic s l) as Hl.
  pose proof (last_merge_all_atomic s l') as Hl'.
  rewrite (foldr_add_permutation _ _ (fmap_Permutation total_primes _ _ Hperm))
    in Ht.
  rewrite (foldr_max_permutation _ _ _ (fmap_Permutation last_prime _ _ Hperm))
    in Hl.
  destruct (merge_all merge_atomic s l), (merge_all merge_atomic s l').
  simpl in *. congruence.
Qed.

(** One job with the atomic merge: it merges the number of primes of its
    window and the last of them, or 0. *)
Lemma prime_slice_atomic_spec fuel cxt shared :
  let start := slice_start cxt in
  let values := slice_values cxt in
  let B := range (base_primes cxt) in
  16 <= B <= 2 ^ 28 → B <= start <= 2 ^ 60 → Z.odd start = false →
  0 <= values <= B → B mod 16 = 0 →
  start + round_up_16 values <= B * B →
  (∀ w, Z.odd w = true → 3 <= w < B →
        marked (base_primes cxt) w = false ↔ Z.prime w) →
  B <= Z.of_nat fuel →
  prime_slice_atomic fuel cxt shared =
  Some (merge_atomic shared
    (Counters (Z.of_nat (length (primes_in start (start + values))))
              (default 0 (list.last (primes_in start (start + values)))))).
Proof.
  intros start values B HB Hstart Heven Hvalues HB16 Hsq Hbase Hfuel.
  unfold prime_slice_atomic. fold (round_up_16 (slice_values cxt)).
  destruct (round_up_16_bounds values ltac:(lia)) as [Hal Hal16].
  destruct (sieve_slice_window fuel cxt) as (s & -> & Hrs & Hbits); try done.
  fold start values in Hrs, Hbits |- *. simpl.
  assert (round_up_16 values <= B) as HalB.
  { pose proof (Z.div_mod (round_up_16 values) 16 ltac:(lia)).
    pose proof (Z.div_mod B 16 ltac:(lia)). lia. }
  destruct (scan_slice_spec fuel start values s) as (c & -> & Htot & Hlast);
    try lia.
  { unfold UINT64_MAX. lia. }
  simpl. do 2 f_equal.
  rewrite <-(unmarked_odds_slice_primes s start values); try done; try lia.
  - rewrite length_fmap, fmap_last. destruct c as [tot lst]. simpl in *.
    rewrite Htot, Hlast. by destruct (list.last _).
  - intros c' Hoc Hc. apply Hbits; [done|lia].
Qed.

Section AtomicMerge.
Variables (fuel : nat) (primes : list Z) (N S : Z).
Let B := range primes.
Hypothesis HB : 16 <= B <= 2 ^ 28.
Hypothesis HB16 : B mod 16 = 0.
Hypothesis HS : 1 <= S.
Hypothesis HN : S * B < N <= (S + 1) * B.
Hypothesis Hsq : N <= B * B.
Hypothesis Hbase : ∀ w, Z.odd w = true → 3 <= w < B →
  marked primes w = false ↔ Z.prime w.
Hypothesis Hfuel : B <= Z.of_nat fuel.

(** What the job of slice [i] finds. *)
Let found (i : Z) : counters :=
  Counters (Z.of_nat (length (primes_in (B * i) (Z.min N (B * (i + 1))))))
           (default 0 (list.last (primes_in (B * i) (Z.min N (B * (i + 1)))))).

Lemma make_job_atomic_spec i c :
  1 <= i <= S →
  prime_slice_atomic fuel (make_job primes B N S i) c =
  Some (merge_atomic c (found i)).
Proof.
  intros Hi.
  assert (S < B).
  { destruct (decide (S < B)) as [|Hge]; [done|exfalso].
    assert (B * B <= S * B) by (apply Z.mul_le_mono_nonneg_r; lia). lia. }
  assert (B * 1 <= B * i <= B * S)
    by (split; apply Z.mul_le_mono_nonneg_l; lia).
  assert (B * S <= B * (B - 1)) by (apply Z.mul_le_mono_nonneg_l; lia).
  assert (B * B <= 2 ^ 28 * 2 ^ 28) by (apply Z.mul_le_mono_nonneg; lia).
  destruct (make_job_window primes B N S i HB HN Hsq Hi) as [Hstart Hvalues].
  assert (B * i + slice_values (make_job primes B N S i)
          = Z.min N (B * (i + 1))) as Hend by lia.
  unfold found. rewrite <-Hend, <-Hstart.
  apply prime_slice_atomic_spec; rewrite ?Hstart, ?Hvalues;
    change (range (base_primes (make_job primes B N S i))) with B;
    try done; try lia.
  - by rewrite Z.odd_mul, multiple_of_16_even.
  - assert ((B * B - B * i) mod 16 = 0) as Hmod.
    { replace (B * B - B * i) with ((B - i) * (B / 16) * 16).
      - apply Z.mod_mul. lia.
      - pose proof (Z.div_mod B 16 ltac:(lia)) as E. rewrite HB16 in E.
        rewrite E at 3 4. lia. }
    pose proof (round_up_16_le (Z.min N (B * (i + 1)) - B * i)
                  (B * B - B * i) ltac:(lia) ltac:(lia) Hmod). lia.
Qed.

(** In whatever order the jobs reach the merge, the counters are those of
    the merges of what the jobs find. *)
Lemma run_slices_atomic_spec order c :
  Forall (λ i, 1 <= i <= S) order →
  run_slices_atomic fuel primes B N S order c =
  Some (merge_all merge_atomic c (found <$> order)).
Proof.
  unfold run_slices_atomic, merge_all. intros Hall. revert c.
  induction Hall as [|i order Hi _ IH]; intros c; [done|].
  simpl. rewrite make_job_atomic_spec by done. apply IH.
Qed.

(** The merges in the order of the slices: after the first [n] of them
    the counters describe the primes below the end of slice [n]. *)
Lemma merge_atomic_in_order base n :
  N <= 2 ^ 60 →
  total_primes base = pi B →
  list.last (primes_in 0 B) = Some (last_prime base) →
  Z.of_nat n <= S →
  let c := merge_all merge_atomic base (found <$> seqZ 1 (Z.of_nat n)) in
  total_primes c = pi (Z.min N (B * (Z.of_nat n + 1))) ∧
  list.last (primes_in 0 (Z.min N (B * (Z.of_nat n + 1)))) = Some (last_prime c).
Proof.
  intros HN60 Htot Hlast.
  assert (B * 1 <= B * S) by (apply Z.mul_le_mono_nonneg_l; lia).
  induction n as [|n IH]; intros Hn.
  - simpl. replace (Z.min N (B * (Z.of_nat 0 + 1))) with B by lia. done.
  - rewrite Nat2Z.inj_succ, <-Z.add_1_r in *.
    destruct IH as [IHt IHl]; [lia|].
    set (k := Z.of_nat n) in *.
    assert (B * (k + 1) <= B * S) by (apply Z.mul_le_mono_nonneg_l; lia).
    assert (B * (k + 1 + 1) = B * (k + 1) + B) as Enext by lia.
    replace (Z.min N (B * (k + 1))) with (B * (k + 1)) in IHt, IHl by lia.
    simpl. rewrite seqZ_app, seqZ_one, fmap_app by lia.
    unfold merge_all in *. rewrite foldl_app. simpl.
    set (c := foldl merge_atomic base (found <$> seqZ 1 k)) in *.
    replace (1 + k) with (k + 1) by lia.
    set (lo := B * (k + 1)) in *. set (hi := Z.min N (B * (k + 1 + 1))).
    assert (lo <= hi) by (unfold hi; lia).
    pose proof (pi_bounds hi). pose proof (pi_bounds lo).
    pose proof (primes_in_bounds lo hi).
    split.
    + rewrite IHt, (pi_split lo hi) by lia.
      apply to_u64_id, fits_u64_bounds. lia.
    + rewrite (primes_in_split 0 lo hi), last_app by lia.
      pose proof (last_primes_in _ _ _ IHl) as (Hp & Hlt & _).
      pose proof (Z.prime_ge_2 _ Hp).
      destruct (list.last (primes_in lo hi)) as [v|] eqn:E; simpl.
      * assert (v ∈ primes_in lo hi) as Hin.
        { unfold primes_in in *. by destruct (last_filter_seqZ _ lo hi v E). }
        apply elem_of_primes_in in Hin as [_ Hv].
        by rewrite (proj2 (Z.ltb_lt _ _)) by lia.
      * by rewrite (proj2 (Z.ltb_ge _ _)) by lia.
Qed.
End AtomicMerge.

(** X12: the merge of lines 245-250, which [#if 1] leaves out, in the place
    of that of lines 241-243: for every valid plan with slices ([N] at
    most [10^15]), and in whatever order the jobs reach the merge, the shared counters end as
    the number of primes below [N] and the greatest prime below [N]. *)
Theorem atomic_merge_any_order
    (fuel : nat) (N B S junk : Z) (order : list Z) :
  valid_plan N B S → 1 <= S → order ≡ₚ seqZ 1 S → B <= Z.of_nat fuel →
  ∃ primes base p,
    build_base fuel B = Some primes ∧
    scan_base fuel primes B N junk = Some base ∧
    run_slices_atomic fuel primes B N S order base = Some (Counters (pi N) p) ∧
    greatest_prime_below N p.
Proof.
  intros (HB & HB16 & HN & [[? _]|(_ & HNS & Hsq)]) HS Hperm Hfuel; [lia|].
  assert (N <= 2 ^ 60) as HN60.
  { assert (B * B <= 2 ^ 28 * 2 ^ 28) by (apply Z.mul_le_mono_nonneg; lia).
    lia. }
  destruct (build_base_spec fuel B) as (p & Hp & Hrange & _ & Hbase);
    [lia|done|done|].
  destruct (scan_base_spec fuel p B N junk) as (base & Hb & Htot & Hlast);
    [lia|lia|unfold UINT64_MAX; lia|done|].
  assert (B * 1 <= S * B) by (rewrite (Z.mul_comm S); apply Z.mul_le_mono_nonneg_l; lia).
  rewrite Z.min_l in Htot, Hlast by lia.
  rewrite unmarked_odds_primes in Htot, Hlast
    by (intros w How Hw; apply Hbase; [done|lia]).
  destruct (last_primes_from_3 B) as (v & Hv3 & Hv0); [lia|].
  rewrite Hv3 in Hlast. simpl in Hlast. rewrite <-pi_from_3 in Htot by lia.
  rewrite <-Hlast in Hv0. pose proof (pi_bounds B).
  exists p, base. subst B.
  rewrite run_slices_atomic_spec; try done; cycle 1.
  { apply list.Forall_forall. intros i Hi. rewrite Hperm in Hi.
    apply elem_of_seqZ in Hi. lia. }
  rewrite (merge_all_atomic_permutation base _
             ((λ i, Counters
                 (Z.of_nat (length (primes_in (range p * i)
                                      (Z.min N (range p * (i + 1))))))
                 (default 0 (list.last (primes_in (range p * i)
                                          (Z.min N (range p * (i + 1)))))))
              <$> seqZ 1 S));
    [|apply fits_u64_bounds; lia|by apply fmap_Permutation].
  destruct (merge_atomic_in_order fuel p N S HB HS HNS Hsq base (Z.to_nat S))
    as [Ht Hl]; try done; try lia.
  rewrite Z2Nat.id in Ht, Hl by lia.
  replace (Z.min N (range p * (S + 1))) with N in Ht, Hl by lia.
  apply last_primes_in in Hl as Hgreat.
  eexists. split; [done|]. split; [done|]. split; [|done].
  destruct (merge_all _ _ _). simpl in *. by rewrite Ht.
Qed.

Lemma atomic_merge_any_order_witness :
  ∃ primes base p,
    build_base 64 16 = Some primes ∧
    scan_base 64 primes 16 65 0 = Some base ∧
    run_slices_atomic 64 primes 16 65 4 [2; 1; 4; 3] base
      = Some (Counters (pi 65) p) ∧
    greatest_prime_below 65 p.
Proof.
  apply (atomic_merge_any_order 64 65 16 4 0 [2; 1; 4; 3]); [|lia| |lia].
  - split; [lia|]. split; [reflexivity|]. split; [lia|]. right. lia.
  - change (seqZ 1 4) with [1; 2; 3; 4].
    apply (Permutation_trans (l' := [1; 2; 4; 3])).
    + apply perm_swap.
    + do 2 apply perm_skip. apply perm_swap.
Defined.
